(** * fastapi-user-auth: permission encoding, policy adapter, option trees
      and field-level deny sets

    A shallow embedding of [fastapi_user_auth/utils.py] and of
    [AuthModelAdmin.get_deny_fields] from [fastapi_user_auth/mixins/admin.py].

    Python [str] values are modelled as [string].  The only characters the
    code inspects are the ASCII delimiters hash and comma, and no UTF-8
    multi-byte sequence contains an ASCII byte, so splitting and joining the
    encoded bytes agrees with splitting and joining the code points. *)

From Stdlib Require Import ZArith Lia Ascii String.
From stdpp Require Import base tactics option list strings gmap sets.

Local Open Scope string_scope.
Local Open Scope list_scope.
Local Open Scope nat_scope.

#[local] Set Warnings "-clear-no-such-hyp".

(** ** Python string primitives *)

Module PyStr.

(** [s.split(sep)] for a one-character separator: every occurrence of the
    separator cuts, so the result is never empty and splitting the empty
    string gives the one-element list holding the empty string. *)
Fixpoint split (sep : ascii) (s : string) : list string :=
  match s with
  | EmptyString => [EmptyString]
  | String c rest =>
      if decide (c = sep) then EmptyString :: split sep rest
      else match split sep rest with
           | [] => [String c EmptyString]
           | w :: ws => String c w :: ws
           end
  end.

(** [sep.join(values)] *)
Definition join (sep : string) (values : list string) : string :=
  String.concat sep values.

(** [c in s] for a character [c] *)
Fixpoint contains (c : ascii) (s : string) : bool :=
  match s with
  | EmptyString => false
  | String x rest => bool_decide (x = c) || contains c rest
  end.

(** number of occurrences of [c] in [s] *)
Fixpoint count (c : ascii) (s : string) : nat :=
  match s with
  | EmptyString => 0
  | String x rest => (if decide (x = c) then 1 else 0) + count c rest
  end.

End PyStr.

(** ** Permission encoding (utils.py, lines 147-162) *)

(** a list of [n] empty strings *)
Definition empty_strings (n : nat) : list string := replicate n EmptyString.

(** [casbin_permission_encode]: the variadic positional arguments are the
    list [field_values]. *)
Definition casbin_permission_encode (field_values : list string) : string :=
  let values := field_values in
  let values :=
    if decide (length values < 5)
    then values ++ empty_strings (5 - length values)
    else values in
  PyStr.join "#" values.

(** [casbin_permission_decode(permission)] *)
Definition casbin_permission_decode (permission : string) : list string :=
  let field_values := PyStr.split "#" permission in
  if decide (length field_values < 5)
  then field_values ++ empty_strings (5 - length field_values)
  else field_values.

(** ** Action normalization (utils.py, lines 13-25) *)

Definition encode_admin_action (action : string) : string :=
  let perfix := "admin:" in
  if decide (action ∈ ({["page"]} : gset string)) then perfix +:+ action
  else
    let perfix := perfix +:+ "page:" in
    if decide (action ∈ ({["list"; "update"; "bulk_update"; "create";
                            "bulk_create"; "read"; "submit"]} : gset string))
    then perfix +:+ action
    else
      let perfix := perfix +:+ "action:" in
      perfix +:+ action.

(** ** The policy engine (external collaborator)

    The casbin enforcer is not part of this repository.  It is modelled by
    the contract of the operations the code consumes: a store of [p] rules
    and a store of [g] rules.  The bulk operations are all-or-nothing, and
    a field filter whose value is the empty string matches every rule.

    The engine keeps a [p] rule as the Python sequence it was given: a
    list when the rule was loaded from the policy store or passed as a
    list, a tuple when a caller passed a tuple.  Its test whether a rule
    is held is Python's [rule in policy], and a tuple never equals a list:
    the same items held as a list and asked for as a tuple are not found. *)

Module Casbin.

Definition rule := list string.

Inductive sequence : Type :=
| py_list (items : rule)
| py_tuple (items : rule).

Definition items (s : sequence) : rule :=
  match s with py_list r | py_tuple r => r end.

(** [tuple(s)] *)
Definition tuple (s : sequence) : sequence := py_tuple (items s).

Global Instance sequence_eq_dec : EqDecision sequence.
Proof. solve_decision. Defined.

Global Instance sequence_countable : Countable sequence :=
  inj_countable'
    (λ s, match s with py_list r => inl r | py_tuple r => inr r end)
    (λ x, match x with inl r => py_list r | inr r => py_tuple r end)
    (λ s, match s with py_list _ | py_tuple _ => eq_refl end).

Record Enforcer := mkEnforcer {
  policy : gset sequence;   (* the p rules, as they are held *)
  grouping : gset rule      (* the g rules *)
}.

(** the field filter at index 0 *)
Definition field0_matches (field_value : string) (r : rule) : Prop :=
  field_value = EmptyString ∨ head r = Some field_value.

Global Instance field0_matches_dec v r : Decision (field0_matches v r).
Proof. unfold field0_matches. apply _. Defined.

Definition get_filtered_policy0 (rules : gset rule) (field_value : string) : gset rule :=
  filter (field0_matches field_value) rules.

(** the p rules whose first item passes the filter *)
Definition get_filtered_policy (rules : gset sequence) (field_value : string)
    : gset sequence :=
  filter (λ s, field0_matches field_value (items s)) rules.

Definition get_permissions_for_user (e : Enforcer) (user : string) : list sequence :=
  elements (get_filtered_policy (policy e) user).

(** the g rules of a user, as [get_filtered_grouping_policy(0, user)] reads them *)
Definition get_filtered_grouping_policy (e : Enforcer) (user : string) : list rule :=
  elements (get_filtered_policy0 (grouping e) user).

(** refused, with nothing removed, unless every rule is held as it is
    given *)
Definition remove_policies (e : Enforcer) (rules : gset sequence) : Enforcer :=
  if decide (rules ⊆ policy e)
  then mkEnforcer (policy e ∖ rules) (grouping e)
  else e.

(** refused, with nothing added, when a rule is held already as it is
    given; the rules are kept as they are given *)
Definition add_policies (e : Enforcer) (rules : gset sequence) : Enforcer :=
  if decide (rules ## policy e)
  then mkEnforcer (policy e ∪ rules) (grouping e)
  else e.

Definition delete_roles_for_user (e : Enforcer) (user : string) : Enforcer :=
  mkEnforcer (policy e) (grouping e ∖ get_filtered_policy0 (grouping e) user).

Definition add_grouping_policies (e : Enforcer) (rules : gset rule) : Enforcer :=
  if decide (rules ## grouping e)
  then mkEnforcer (policy e) (grouping e ∪ rules)
  else e.

End Casbin.

Import Casbin.

(** ** Policy engine adapter (utils.py, lines 165-209) *)

Section Adapter.

(** Role resolution and the matcher belong to the engine and its model
    configuration; the adapter only passes their results on. *)
Variable get_implicit_permissions_for_user : Enforcer -> string -> list rule.

(** The slice [permission[1:]] and the call that spreads it read the items
    of a rule, whether it is held as a list or as a tuple. *)
Definition casbin_get_subject_permissions
    (enforcer : Enforcer) (subject : string) (implicit : bool) : list string :=
  let permissions :=
    if implicit then get_implicit_permissions_for_user enforcer subject
    else items <$> get_permissions_for_user enforcer subject in
  (λ permission, casbin_permission_encode (drop 1 permission)) <$> permissions.

End Adapter.

Definition casbin_update_subject_roles
    (enforcer : Enforcer) (subject : string) (role_keys : string) : Enforcer :=
  let new_roles : gset rule :=
    list_to_set ((λ role, [subject; "r:" +:+ role]) <$>
                 filter (λ role, role ≠ EmptyString) (PyStr.split "," role_keys)) in
  let enforcer := delete_roles_for_user enforcer subject in
  if decide (new_roles ≠ ∅) then add_grouping_policies enforcer new_roles
  else enforcer.

(** The rules read from the engine are turned into tuples (line 195), the
    new rules are built as tuples (line 200), and sets of tuples are what
    the engine is asked to remove and to add. *)
Definition casbin_update_subject_permissions
    (enforcer : Enforcer) (subject : string) (permissions : list string)
    : Enforcer * list string :=
  let old_rules := get_permissions_for_user enforcer subject in
  let old_rules : gset sequence := list_to_set (tuple <$> old_rules) in
  let new_rules : gset sequence :=
    foldl (λ new_rules permission,
             let perm := casbin_permission_decode permission in
             new_rules ∪ {[ py_tuple (subject :: perm) ]}) ∅ permissions in
  let remove_rules := old_rules ∖ new_rules in
  let add_rules := new_rules ∖ old_rules in
  let enforcer :=
    if decide (remove_rules ≠ ∅) then remove_policies enforcer remove_rules
    else enforcer in
  let enforcer :=
    if decide (add_rules ≠ ∅) then add_policies enforcer add_rules
    else enforcer in
  (enforcer, permissions).

(** ** Permission-option trees (utils.py, lines 28-74 and 130-143)

    An option is a Python dict with the keys label, value, sort and
    children.  Dicts are objects: they are mutated in place and shared
    between the memoised tree and every list handed out.  [oid] is the
    identity of a dict object. *)

Definition oid := nat.

(** *** Values: a snapshot of the object graph below a list of options *)

#[local] Set Warnings "-register-all".

Inductive option_node : Type := OptionNode {
  node_oid : oid;
  label : string;
  value : string;
  sort : option Z;        (* [None]: the key is missing or holds None *)
  children : option (list option_node)   (* [None]: the key is missing *)
}.

(** [filter_options(options, filter_func)], on values: the list that is
    returned, every kept dict shown with the children it holds on return.
    The loop over [options] is [filter_loop_v]; what it does to a kept
    option (lines 71-73) is [reassign_children], which runs the loop again
    on the children. *)
Definition filter_loop_v
    (kept : option_node -> option_node) (filter_func : option_node -> bool)
    : list option_node -> list option_node :=
  fix loop (options : list option_node) : list option_node :=
    match options with
    | [] => []
    | option :: rest =>
        if negb (filter_func option) then loop rest
        else kept option :: loop rest
    end.

Fixpoint reassign_children
    (filter_func : option_node -> bool) (option : option_node) : option_node :=
  match option with
  | OptionNode o l v s (Some ((_ :: _) as kids)) =>
      OptionNode o l v s
        (Some (filter_loop_v (reassign_children filter_func) filter_func kids))
  | _ => option
  end.

Definition filter_options
    (options : list option_node) (filter_func : option_node -> bool)
    : list option_node :=
  filter_loop_v (reassign_children filter_func) filter_func options.

(** the filter of [get_admin_action_options_by_subject]:
    [lambda item: item["value"] in permissions] *)
Definition value_in (permissions : list string) (v : string) : bool :=
  bool_decide (v ∈ permissions).

Definition by_value (permissions : list string) (item : option_node) : bool :=
  value_in permissions (value item).

(** *** The object store *)

Record option_dict := OptionDict {
  d_label : string;
  d_value : string;
  d_sort : option Z;
  d_children : option (list oid)
}.

(** Lists are held by value: [filter_options] builds fresh lists and never
    changes an existing one, so only dict objects need an identity. *)
Abbreviation store := (gmap oid option_dict).

Definition assign_children (o : oid) (cs : list oid) (h : store) : option store :=
  d ← h !! o;
  Some (<[o := OptionDict (d_label d) (d_value d) (d_sort d) (Some cs)]> h).

(** The loop of [filter_options]; [rec] is the recursive call. *)
Fixpoint filter_loop
    (rec : list oid -> store -> option (store * list oid))
    (filter_func : option_dict -> bool)
    (options : list oid) (h : store) (result : list oid)
    : option (store * list oid) :=
  match options with
  | [] => Some (h, result)
  | option :: rest =>
      d ← h !! option;
      if negb (filter_func d) then filter_loop rec filter_func rest h result
      else
        match d_children d with
        | Some ((_ :: _) as kids) =>
            '(h1, kept) ← rec kids h;
            h2 ← assign_children option kept h1;
            filter_loop rec filter_func rest h2 (result ++ [option])
        | _ => filter_loop rec filter_func rest h (result ++ [option])
        end
  end.

(** [filter_options] on the store.  [limit] is the recursion limit of the
    interpreter: the call fails when the nesting of children exceeds it. *)
Fixpoint filter_options_h
    (limit : nat) (filter_func : option_dict -> bool)
    (options : list oid) (h : store) : option (store * list oid) :=
  match limit with
  | O => None
  | S limit' =>
      filter_loop (filter_options_h limit' filter_func) filter_func options h []
  end.

Definition dict_value_in (permissions : list string) (item : option_dict) : bool :=
  value_in permissions (d_value item).

(** *** The admin tree (external framework)

    The admin classes come from the admin framework.  Only what
    [get_admin_action_options] inspects is kept: the unique id, the page
    schema (label and sort weight, or nothing), the registered actions of an
    action admin in dict order, and the members of a group.  The class tests
    of the code distinguish model admins, form admins, other action admins,
    groups, and plain pages. *)

Record PageSchema := mkPageSchema {
  ps_label : string;
  ps_sort : option Z
}.

Record AdminAction := mkAdminAction {
  action_name : string;
  action_label : string
}.

Inductive Admin : Type :=
| PageSchemaAdmin (unique_id : string) (page_schema : option PageSchema)
| ModelAdmin (unique_id : string) (page_schema : option PageSchema)
    (registered_admin_actions : list (string * AdminAction))
| FormAdmin (unique_id : string) (page_schema : option PageSchema)
    (registered_admin_actions : list (string * AdminAction))
| BaseActionAdmin (unique_id : string) (page_schema : option PageSchema)
    (registered_admin_actions : list (string * AdminAction))
| GroupAdmin (group : AdminGroup)
with AdminGroup : Type :=
| Group (unique_id : string) (page_schema : option PageSchema)
    (members : list Admin).

Definition group_unique_id (g : AdminGroup) : string :=
  match g with Group uid _ _ => uid end.

Definition group_page_schema (g : AdminGroup) : option PageSchema :=
  match g with Group _ ps _ => ps end.

Definition unique_id (admin : Admin) : string :=
  match admin with
  | PageSchemaAdmin uid _ | ModelAdmin uid _ _ | FormAdmin uid _ _
  | BaseActionAdmin uid _ _ => uid
  | GroupAdmin g => group_unique_id g
  end.

Definition page_schema (admin : Admin) : option PageSchema :=
  match admin with
  | PageSchemaAdmin _ ps | ModelAdmin _ ps _ | FormAdmin _ ps _
  | BaseActionAdmin _ ps _ => ps
  | GroupAdmin g => group_page_schema g
  end.

(** *** The memoising wrapper: [functools.lru_cache()] with its default
    capacity.  Entries are kept most recently used first.  A group object
    is identified by its unique id. *)

Definition lru_maxsize : nat := 128.

Definition lru_cache := list (string * list oid).

Fixpoint lru_find (key : string) (c : lru_cache) : option (list oid) :=
  match c with
  | [] => None
  | (k, v) :: c' => if decide (k = key) then Some v else lru_find key c'
  end.

Fixpoint lru_remove (key : string) (c : lru_cache) : lru_cache :=
  match c with
  | [] => []
  | (k, v) :: c' => if decide (k = key) then c' else (k, v) :: lru_remove key c'
  end.

(** a hit moves the entry to the front *)
Definition lru_touch (key : string) (v : list oid) (c : lru_cache) : lru_cache :=
  (key, v) :: lru_remove key c.

(** storing after a miss: nothing is done when the key arrived meanwhile;
    a full cache gives up its oldest entry *)
Definition lru_store (key : string) (v : list oid) (c : lru_cache) : lru_cache :=
  match lru_find key c with
  | Some _ => c
  | None =>
      if decide (lru_maxsize <= length c)%nat then (key, v) :: removelast c
      else (key, v) :: c
  end.

Record State := mkState {
  heap : store;
  next_oid : oid;
  cache : lru_cache
}.

Definition set_heap (σ : State) (h : store) : State :=
  mkState h (next_oid σ) (cache σ).

Definition set_cache (σ : State) (c : lru_cache) : State :=
  mkState (heap σ) (next_oid σ) c.

(** a dict display creates a new object *)
Definition new_dict (d : option_dict) (σ : State) : State * oid :=
  (mkState (<[next_oid σ := d]> (heap σ)) (S (next_oid σ)) (cache σ), next_oid σ).

(** [item["children"] = cs] on an object that exists *)
Definition store_children (item : oid) (cs : list oid) (σ : State) : State :=
  match assign_children item cs (heap σ) with
  | Some h => set_heap σ h
  | None => σ
  end.

(** [options.sort(key=lambda p: p["sort"] or 0, reverse=True)]: a stable
    sort into descending key order (equal keys keep their order). *)
Definition sort_key (h : store) (p : oid) : Z :=
  match h !! p with
  | Some d => match d_sort d with Some z => z | None => 0%Z end
  | None => 0%Z
  end.

Fixpoint insert_desc (key : oid -> Z) (p : oid) (sorted : list oid) : list oid :=
  match sorted with
  | [] => [p]
  | q :: sorted' =>
      if decide (key q <= key p)%Z then p :: q :: sorted'
      else q :: insert_desc key p sorted'
  end.

Definition sort_desc (key : oid -> Z) (options : list oid) : list oid :=
  foldr (insert_desc key) [] options.

(** the children dicts of an action admin, in the order they are appended;
    [None] when the admin is not an action admin *)
Definition registered_options
    (uid : string) (actions : list (string * AdminAction)) : list option_dict :=
  (λ admin_action,
     OptionDict (action_label admin_action)
       (casbin_permission_encode [uid; "admin:" +:+ action_name admin_action])
       None None) <$> (snd <$> actions).

Definition action_options (admin : Admin) : option (list option_dict) :=
  match admin with
  | ModelAdmin uid _ actions =>
      Some (OptionDict "查看列表" (casbin_permission_encode [uid; "admin:list"]) None None
              :: registered_options uid actions)
  | FormAdmin uid _ actions =>
      Some ((if decide ("submit" ∉ (fst <$> actions))
             then [OptionDict "提交" (casbin_permission_encode [uid; "admin:submit"]) None None]
             else [])
            ++ registered_options uid actions)
  | BaseActionAdmin uid _ actions => Some (registered_options uid actions)
  | _ => None
  end.

Fixpoint new_dicts (ds : list option_dict) (σ : State) : State * list oid :=
  match ds with
  | [] => (σ, [])
  | d :: ds' =>
      let '(σ, o) := new_dict d σ in
      let '(σ, os) := new_dicts ds' σ in
      (σ, o :: os)
  end.

(** The children of the item of [admin] (lines 44-58); [rec] is the call
    of the memoised function on a member group. *)
Definition fill_children (rec : AdminGroup -> State -> State * list oid)
    (admin : Admin) (item : oid) (σ : State) : State :=
  match admin with
  | GroupAdmin g =>
      let '(σ, cs) := rec g σ in
      store_children item cs σ
  | _ =>
      match action_options admin with
      | Some ds =>
          let '(σ, cs) := new_dicts ds σ in
          store_children item cs σ
      | None => σ
      end
  end.

(** the dict of the item of [admin], as line 39 creates it *)
Definition item_dict (admin : Admin) (schema : PageSchema) : option_dict :=
  OptionDict (ps_label schema)
    (casbin_permission_encode [unique_id admin; "admin:page"])
    (ps_sort schema) None.

(** The loop over the members of a group (lines 34-59); [options] is the
    list built so far. *)
Definition each_admin (rec : AdminGroup -> State -> State * list oid)
    : list Admin -> State -> list oid -> State * list oid :=
  fix each (admins : list Admin) (σ : State) (options : list oid)
      {struct admins} : State * list oid :=
    match admins with
    | [] => (σ, options)
    | admin :: rest =>
        match page_schema admin with
        | None => each rest σ options
        | Some schema =>
            let '(σ, item) := new_dict (item_dict admin schema) σ in
            let σ := fill_children rec admin item σ in
            each rest σ (options ++ [item])
        end
    end.

(** [get_admin_action_options(group)], behind its [lru_cache] wrapper *)
Fixpoint get_admin_action_options (group : AdminGroup) (σ : State)
    {struct group} : State * list oid :=
  match lru_find (group_unique_id group) (cache σ) with
  | Some options =>
      (set_cache σ (lru_touch (group_unique_id group) options (cache σ)), options)
  | None =>
      match group with
      | Group _ _ members =>
          let '(σ, options) := each_admin get_admin_action_options members σ [] in
          let options :=
            match options with
            | [] => options
            | _ :: _ => sort_desc (sort_key (heap σ)) options
            end in
          (set_cache σ (lru_store (group_unique_id group) options (cache σ)), options)
      end
  end.

Section BySubject.

(** [SystemUserEnum.ROOT] is declared in [fastapi_user_auth.auth.schemas] *)
Variable ROOT : string.
Variable get_implicit_permissions_for_user : Enforcer -> string -> list rule.

(** [get_admin_action_options_by_subject(enforcer, subject, group)] *)
Definition get_admin_action_options_by_subject
    (limit : nat) (enforcer : Enforcer) (subject : string) (group : AdminGroup)
    (σ : State) : option (State * list oid) :=
  let '(σ, options) := get_admin_action_options group σ in
  if decide (subject ≠ "u:" +:+ ROOT) then
    let permissions :=
      casbin_get_subject_permissions get_implicit_permissions_for_user
        enforcer subject true in
    '(h, options) ← filter_options_h limit (dict_value_in permissions) options (heap σ);
    Some (set_heap σ h, options)
  else Some (σ, options).

End BySubject.

(** ** Field-permission resolver (mixins/admin.py, lines 92-191) *)

(** the arguments of one [enforcer.enforce] call *)
Definition query := (string * string * string * string)%type.

Section FieldPermissions.

(** [SystemUserEnum.GUEST] is declared in [fastapi_user_auth.auth.schemas] *)
Variable GUEST : string.

(** Schema introspection is done by [get_schema_fields_name_label], which
    is not among the sources: it is taken as given.  It returns a dict from
    field name to label, held here in dict order. *)
Variable Schema : Type.
Variable get_schema_fields_name_label :
  Schema -> string -> bool -> list string -> list (string * string).

Record AuthModelAdmin := mkAuthModelAdmin {
  self_unique_id : string;
  permission_exclude : gmap string (list string);
  schema_list : Schema;
  schema_filter : Schema;
  schema_create : Schema;
  schema_read : Schema;
  schema_update : Schema
}.

(** The request: its scope holds, under one key per admin, the dict from
    action to deny set.  Other scope entries play no part. *)
Record Request := mkRequest {
  scope : gmap string (gmap string (gset string))
}.

(** What the site's auth object answers during one call: the identity of the
    current user and the verdicts of the enforcer. *)
Record Auth := mkAuth {
  get_current_user_identity : Request -> option string;
  enforce : query -> bool
}.

Definition exclude_of (self : AuthModelAdmin) (key : string) : list string :=
  default [] (permission_exclude self !! key).

Definition get_permission_fields (self : AuthModelAdmin) (action : string)
    : list (string * string) :=
  let all_exclude := exclude_of self "all" in
  if decide (action = "list") then
    let list_exclude := exclude_of self "list" in
    get_schema_fields_name_label (schema_list self) "列表展示-" true
      (all_exclude ++ list_exclude)
  else if decide (action = "filter") then
    let filter_exclude := exclude_of self "filter" in
    get_schema_fields_name_label (schema_filter self) "列表筛选-" true
      (all_exclude ++ filter_exclude)
  else if decide (action = "create") then
    let create_exclude := exclude_of self "create" in
    get_schema_fields_name_label (schema_create self) "新增-" true
      (all_exclude ++ create_exclude)
  else if decide (action = "read") then
    let read_exclude := exclude_of self "read" in
    get_schema_fields_name_label (schema_read self) "查看-" true
      (all_exclude ++ read_exclude)
  else if decide (action = "update") then
    let update_exclude := exclude_of self "update" in
    get_schema_fields_name_label (schema_update self) "更新-" true
      (all_exclude ++ update_exclude)
  else [].

(** the cached properties: each is computed once from data that never
    changes, so it is the value of [get_permission_fields] *)
Definition create_permission_fields self := get_permission_fields self "create".
Definition read_permission_fields self := get_permission_fields self "read".
Definition update_permission_fields self := get_permission_fields self "update".
Definition list_permission_fields self := get_permission_fields self "list".
Definition filter_permission_fields self := get_permission_fields self "filter".

(** the query [has_field_permission] sends to the enforcer *)
Definition field_query
    (self : AuthModelAdmin) (auth : Auth) (request : Request)
    (field action : string) : query :=
  let subject :=
    match get_current_user_identity auth request with
    | Some s => if decide (s = EmptyString) then GUEST else s
    | None => GUEST
    end in
  ("u:" +:+ subject, self_unique_id self,
   "page:" +:+ action +:+ ":" +:+ field, "page:" +:+ action).

Definition has_field_permission
    (self : AuthModelAdmin) (auth : Auth) (request : Request)
    (field action : string) : bool :=
  let effect := enforce auth (field_query self auth request field action) in
  effect.

(** what one call of [get_deny_fields] leaves behind and returns *)
Record DenyResult := mkDenyResult {
  request_after : Request;
  deny_fields : gset string;
  enforcer_queries : list query    (* the enforcer calls made, in order *)
}.

Definition get_deny_fields
    (self : AuthModelAdmin) (auth : Auth) (request : Request) (action : string)
    : DenyResult :=
  let cache_key := self_unique_id self +:+ "_exclude_fields" in
  let request_cache := default ∅ (scope request !! cache_key) in
  match request_cache !! action with
  | Some fields => mkDenyResult request fields []
  | None =>
      let check_fields :=
        if decide (action = "list") then fst <$> list_permission_fields self
        else if decide (action = "filter") then fst <$> filter_permission_fields self
        else if decide (action = "create") then fst <$> create_permission_fields self
        else if decide (action = "update") then fst <$> update_permission_fields self
        else if decide (action = "read") then fst <$> read_permission_fields self
        else [] in
      let fields : gset string :=
        list_to_set
          (filter (λ field, has_field_permission self auth request field action = false)
                  check_fields) in
      let queries :=
        (λ field, field_query self auth request field action) <$> check_fields in
      (* [request_cache] is the dict held by the scope when the key is
         there, so the assignment shows through the scope; otherwise the
         new dict is put into the scope.  Either way the scope ends up
         holding the updated dict under [cache_key]. *)
      let request_cache := <[action := fields]> request_cache in
      mkDenyResult (mkRequest (<[cache_key := request_cache]> (scope request)))
        fields queries
  end.

End FieldPermissions.

Arguments self_unique_id {Schema} _.
Arguments permission_exclude {Schema} _.
Arguments get_deny_fields GUEST {Schema} _ _ _ _ _.

(** the entry for [action] in the request-scoped cache of [self] *)
Definition cache_entry {Schema : Type}
    (self : AuthModelAdmin Schema) (request : Request) (action : string)
    : option (gset string) :=
  default ∅ (scope request !! (self_unique_id self +:+ "_exclude_fields")) !! action.

(** the rule sets the two update functions compute from their arguments *)
Definition new_roles_of (subject role_keys : string) : gset rule :=
  list_to_set ((λ role, [subject; "r:" +:+ role]) <$>
               filter (λ role, role ≠ EmptyString) (PyStr.split "," role_keys)).

Definition new_rules_of (subject : string) (permissions : list string)
    : gset sequence :=
  list_to_set ((λ permission, py_tuple (subject :: casbin_permission_decode permission))
               <$> permissions).

(** *** A concrete admin, for the examples *)

Module DenyExample.

(** schemas as lists of optional-field names; labels are prefix + name *)
Definition fields_name_label
    (schema : list string) (prefix : string) (exclude_required : bool)
    (exclude : list string) : list (string * string) :=
  (λ name, (name, prefix +:+ name)) <$> filter (λ name, name ∉ exclude) schema.

Definition user_admin : AuthModelAdmin (list string) :=
  mkAuthModelAdmin (list string) "site.user" {[ "read" := ["salary"] ]}
    ["name"; "salary"] ["name"] ["name"; "salary"] ["name"; "salary"]
    ["name"; "salary"].

Definition deny_all : Auth := mkAuth (λ _, None) (λ _, false).
Definition allow_all : Auth := mkAuth (λ _, Some "alice") (λ _, true).
Definition fresh_request : Request := mkRequest ∅.

Abbreviation deny := (get_deny_fields "guest" fields_name_label user_admin).

End DenyExample.

(** *** Callers that come one after the other, for the same group *)

Record Caller := mkCaller {
  caller_limit : nat;           (* the recursion limit of the call *)
  caller_enforcer : Enforcer;   (* what the enforcer holds by then *)
  caller_subject : string
}.

Section Callers.

Variable ROOT : string.
Variable get_implicit_permissions_for_user : Enforcer -> string -> list rule.

Fixpoint serve (group : AdminGroup) (callers : list Caller) (σ : State)
    : option State :=
  match callers with
  | [] => Some σ
  | c :: rest =>
      '(σ', _) ← get_admin_action_options_by_subject ROOT
                   get_implicit_permissions_for_user (caller_limit c)
                   (caller_enforcer c) (caller_subject c) group σ;
      serve group rest σ'
  end.

(** the permission lists the callers filter with; root filters with none *)
Definition filters_of (callers : list Caller) : list (list string) :=
  foldr (λ c filters,
           if decide (caller_subject c ≠ "u:" +:+ ROOT)
           then casbin_get_subject_permissions get_implicit_permissions_for_user
                  (caller_enforcer c) (caller_subject c) true :: filters
           else filters) [] callers.

End Callers.

(** *** Relating the store to snapshots *)

(** the dict object of which [option] is the snapshot *)
Definition dict_of (option : option_node) : option_dict :=
  OptionDict (label option) (value option) (sort option)
    (map node_oid <$> children option).

Definition kids (option : option_node) : list option_node :=
  default [] (children option).

(** the store holds the object graph that [option] shows *)
Inductive represents (h : store) : option_node -> Prop :=
| represents_node option :
    h !! node_oid option = Some (dict_of option) ->
    Forall (represents h) (kids option) ->
    represents h option.

(** the objects of a snapshot *)
Fixpoint oids (option : option_node) : list oid :=
  match option with
  | OptionNode o _ _ _ cs =>
      o :: match cs with Some ks => flat_map oids ks | None => [] end
  end.

Definition oids_list (options : list option_node) : list oid :=
  flat_map oids options.

(** how deep [filter_options] recurses below an option: one level for each
    non-empty children list on the way down *)
Fixpoint nesting (option : option_node) : nat :=
  match option with
  | OptionNode _ _ _ _ (Some ((_ :: _) as ks)) => S (max_list (nesting <$> ks))
  | _ => 0
  end.

(** what a listed option shows once [filter_options] has returned: a kept
    option has had its children reassigned, a skipped one is untouched *)
Definition shown_after
    (filter_func : option_node -> bool) (option : option_node) : option_node :=
  if filter_func option then reassign_children filter_func option else option.

(** the store holds the forest [options], every object once *)
Definition well_formed (h : store) (options : list option_node) : Prop :=
  Forall (represents h) options ∧ NoDup (oids_list options).

(** What a call on the store does, told on the snapshot [options] of its
    argument: it returns [result] followed by the objects of the filtered
    snapshot, leaves every listed option as [shown_after] says, and touches
    no other object. *)
Definition refines_values
    (filter_func : option_node -> bool)
    (call : list oid -> store -> option (store * list oid))
    (result : list oid) (options : list option_node) (h : store) : Prop :=
  ∃ h', call (node_oid <$> options) h
        = Some (h', result ++ (node_oid <$> filter_options options filter_func))
      ∧ Forall (represents h') (shown_after filter_func <$> options)
      ∧ (∀ o, o ∉ oids_list options → h' !! o = h !! o).

(** Reading the store: the snapshot of the object graph below [o], down
    to [depth] levels; [None] when an object is missing or the graph is
    deeper. *)
Fixpoint snapshot (depth : nat) (h : store) (o : oid) : option option_node :=
  match depth with
  | O => None
  | S depth' =>
      d ← h !! o;
      match d_children d with
      | None => Some (OptionNode o (d_label d) (d_value d) (d_sort d) None)
      | Some cs =>
          ks ← mapM (snapshot depth' h) cs;
          Some (OptionNode o (d_label d) (d_value d) (d_sort d) (Some ks))
      end
  end.

Definition snapshots (depth : nat) (h : store) (options : list oid)
    : option (list option_node) :=
  mapM (snapshot depth h) options.

(** what the listed options show after one filtering per permission list *)
Definition shown_after_all
    (filters : list (list string)) (options : list option_node)
    : list option_node :=
  foldl (λ shown permissions, shown_after (by_value permissions) <$> shown)
        options filters.

(** the memoised list [options] of the group shows [tree] *)
Definition memoised_as
    (group : AdminGroup) (options : list oid) (depth : nat)
    (tree : list option_node) (σ : State) : Prop :=
  lru_find (group_unique_id group) (cache σ) = Some options
  ∧ node_oid <$> tree = options
  ∧ well_formed (heap σ) tree
  ∧ Forall (λ n, nesting n < depth) tree.

(** *** What a build leaves in the store *)

(** the unique ids of a group and of the groups below it *)
Fixpoint group_ids (g : AdminGroup) : list string :=
  match g with
  | Group uid _ members =>
      uid :: flat_map (λ admin,
                         match admin with
                         | GroupAdmin g' => group_ids g'
                         | _ => []
                         end) members
  end.

Definition member_group_ids (admins : list Admin) : list string :=
  flat_map (λ admin,
              match admin with
              | GroupAdmin g => group_ids g
              | _ => []
              end) admins.

(** the next identity is above every object there is *)
Definition allocator_ok (σ : State) : Prop :=
  ∀ o, is_Some (heap σ !! o) → o < next_oid σ.

(** from [σ] to [σ1] the new objects of the forest [tree] were created,
    listed as [options]; every older object is as it was *)
Definition builds
    (σ σ1 : State) (options : list oid) (tree : list option_node) : Prop :=
  node_oid <$> tree = options
  ∧ Forall (represents (heap σ1)) tree
  ∧ NoDup (oids_list tree)
  ∧ (∀ o, o ∈ oids_list tree → next_oid σ ≤ o < next_oid σ1)
  ∧ next_oid σ ≤ next_oid σ1
  ∧ allocator_ok σ1
  ∧ (∀ o, o < next_oid σ → heap σ1 !! o = heap σ !! o).

(** from [σ] to [σ1] no key outside [ids] has entered the memo *)
Definition memo_within (ids : list string) (σ σ1 : State) : Prop :=
  ∀ k, k ∉ ids → lru_find k (cache σ) = None → lru_find k (cache σ1) = None.

(** the snapshot of a dict without children *)
Definition leaf_of (o : oid) (d : option_dict) : option_node :=
  OptionNode o (d_label d) (d_value d) (d_sort d) None.

(** the value paths of a forest: the values met from a listed option down
    to some option below it *)
Fixpoint has_path (path : list string) (options : list option_node) : Prop :=
  match path with
  | [] => False
  | v :: rest =>
      ∃ option, option ∈ options ∧ value option = v
                ∧ (rest = [] ∨ has_path rest (kids option))
  end.

(** The survival rule in the words of the specification: an option
    survives when its own value is allowed or one of its descendants
    survives. *)
Fixpoint survives_spec (permissions : list string) (option : option_node) : bool :=
  match option with
  | OptionNode _ _ v _ cs =>
      value_in permissions v
      || match cs with
         | Some ks => existsb (survives_spec permissions) ks
         | None => false
         end
  end.

(** *** Example trees *)

Module TreeExample.

Definition leaf : option_node :=
  OptionNode 2 "Export" "site.user#admin:export###" None None.
Definition parent : option_node :=
  OptionNode 1 "Users" "site.user#admin:page###" (Some 0%Z) (Some [leaf]).
Definition grandparent : option_node :=
  OptionNode 0 "Site" "site#admin:page###" (Some 0%Z) (Some [parent]).

End TreeExample.

(** *** An example site *)

Module SiteExample.

Definition users : Admin :=
  ModelAdmin "site.user" (Some (mkPageSchema "Users" (Some 1%Z)))
    [("create", mkAdminAction "create" "Create");
     ("delete", mkAdminAction "delete" "Delete")].

Definition settings : Admin :=
  FormAdmin "site.settings" (Some (mkPageSchema "Settings" None)) [].

Definition hidden : Admin := PageSchemaAdmin "site.hidden" None.

Definition docs : Admin :=
  PageSchemaAdmin "site.docs" (Some (mkPageSchema "Docs" (Some 5%Z))).

Definition reports : AdminGroup :=
  Group "site.reports" (Some (mkPageSchema "Reports" (Some 1%Z)))
    [PageSchemaAdmin "site.reports.sales" (Some (mkPageSchema "Sales" None))].

Definition site : AdminGroup :=
  Group "site" (Some (mkPageSchema "Site" None))
    [users; settings; hidden; docs; GroupAdmin reports].

Definition start : State := mkState ∅ 0 [].

(** the engine hands out fixed implicit permissions: the subject may see
    the users page and create users, nothing else *)
Definition implicit_permissions (e : Enforcer) (subject : string) : list rule :=
  [[subject; "site.user"; "admin:page"; ""; ""; ""];
   [subject; "site.user"; "admin:create"; ""; ""; ""]].

Definition no_rules : Enforcer := mkEnforcer ∅ ∅.

(** what the first call for the site builds, and the tree it shows *)
Definition built : State * list oid := get_admin_action_options site start.

Definition full_tree : list option_node :=
  Eval vm_compute in default [] (snapshots 3 (heap built.1) built.2).

End SiteExample.

(** *** What a build shows, told without the store

    An option as a client of the API sees it: the dict without its
    identity. *)
Inductive shape : Type := Shape {
  s_label : string;
  s_value : string;
  s_sort : option Z;
  s_children : option (list shape)
}.

Fixpoint erase (option : option_node) : shape :=
  match option with
  | OptionNode _ l v s cs =>
      Shape l v s match cs with
                  | Some ks => Some (erase <$> ks)
                  | None => None
                  end
  end.

(** a stable sort into descending key order, on any type of elements *)
Fixpoint insert_by {A : Type} (key : A -> Z) (p : A) (sorted : list A) : list A :=
  match sorted with
  | [] => [p]
  | q :: sorted' =>
      if decide (key q <= key p)%Z then p :: q :: sorted'
      else q :: insert_by key p sorted'
  end.

Definition sort_by {A : Type} (key : A -> Z) (options : list A) : list A :=
  foldr (insert_by key) [] options.

(** [p["sort"] or 0] *)
Definition shape_weight (p : shape) : Z :=
  match s_sort p with Some z => z | None => 0%Z end.

Definition leaf_shape (d : option_dict) : shape :=
  Shape (d_label d) (d_value d) (d_sort d) None.

(** the children of the item of [admin]: the action dicts of an action
    admin, what the group shows for a group, no children key otherwise *)
Definition children_shapes
    (rec : AdminGroup -> list shape) (admin : Admin) : option (list shape) :=
  match admin with
  | GroupAdmin g => Some (rec g)
  | _ => (λ ds : list option_dict, leaf_shape <$> ds) <$> action_options admin
  end.

(** the item of [admin]; none when the admin has no page schema *)
Definition item_shape
    (rec : AdminGroup -> list shape) (admin : Admin) : option shape :=
  schema ← page_schema admin;
  Some (Shape (ps_label schema)
          (casbin_permission_encode [unique_id admin; "admin:page"])
          (ps_sort schema)
          (children_shapes rec admin)).

(** The full permission-option tree of a group, as lines 34-61 of
    [get_admin_action_options] describe it when nothing is memoised: an
    item per member with a page schema, sorted. *)
Fixpoint group_shapes (g : AdminGroup) : list shape :=
  match g with
  | Group _ _ members =>
      sort_by shape_weight (omap (item_shape group_shapes) members)
  end.

(** what the list [options] shows in [σ], identities apart *)
Definition shown (depth : nat) (σ : State) (options : list oid)
    : option (list shape) :=
  (λ tree : list option_node, erase <$> tree) <$> snapshots depth (heap σ) options.

(** *** Three subjects of the example site, one after the other *)

Module SiteCallers.

(** bob may see the users page and create users, alice may see the users
    page and delete users *)
Definition implicit_permissions (e : Enforcer) (subject : string) : list rule :=
  if decide (subject = "u:alice")
  then [[subject; "site.user"; "admin:page"; ""; ""; ""];
        [subject; "site.user"; "admin:delete"; ""; ""; ""]]
  else [[subject; "site.user"; "admin:page"; ""; ""; ""];
        [subject; "site.user"; "admin:create"; ""; ""; ""]].

Definition call (subject : string) (σ : State) : option (State * list oid) :=
  get_admin_action_options_by_subject "root" implicit_permissions 10
    SiteExample.no_rules subject SiteExample.site σ.

(** the state after bob has been served on a process that has just
    started, and after root has been served next *)
Definition after_bob : State :=
  default SiteExample.start (fst <$> call "u:bob" SiteExample.start).

Definition after_root : State :=
  default after_bob (fst <$> call "u:root" after_bob).

End SiteCallers.

(** * Theorems *)

(** ** Running the encoders *)

Example encode_admin_action_page : encode_admin_action "page" = "admin:page".
Proof. vm_compute. reflexivity. Qed.

Example encode_admin_action_list : encode_admin_action "list" = "admin:page:list".
Proof. vm_compute. reflexivity. Qed.

Example encode_admin_action_custom :
  encode_admin_action "export" = "admin:page:action:export".
Proof. vm_compute. reflexivity. Qed.

Example decode_short : casbin_permission_decode "a#b" = ["a"; "b"; ""; ""; ""].
Proof. vm_compute. reflexivity. Qed.

Example decode_long :
  casbin_permission_decode "a#b#c#d#e#f" = ["a"; "b"; "c"; "d"; "e"; "f"].
Proof. vm_compute. reflexivity. Qed.

Example encode_two :
  casbin_permission_encode ["uid"; "admin:page"] = "uid#admin:page###".
Proof. vm_compute. reflexivity. Qed.


(** ** Splitting and joining *)

Module PyStrFacts.
Import PyStr.

Lemma split_not_nil sep s : split sep s ≠ [].
Proof.
  destruct s as [|c s]; simpl; [done|].
  destruct (decide (c = sep)); [done|].
  destruct (split sep s); done.
Qed.

Lemma split_length sep s : length (split sep s) = S (count sep s).
Proof.
  induction s as [|c s IH]; simpl; [done|].
  destruct (decide (c = sep)); simpl; [by rewrite IH|].
  pose proof (split_not_nil sep s) as Hne.
  destruct (split sep s) as [|w ws]; [done|]. simpl in *. lia.
Qed.

(** a string without the separator is one segment *)
Lemma split_no_sep sep s : contains sep s = false → split sep s = [s].
Proof.
  induction s as [|c s IH]; simpl; [done|].
  intros [Hc Hs]%orb_false_elim.
  apply bool_decide_eq_false in Hc.
  destruct (decide (c = sep)); [done|]. by rewrite IH.
Qed.

(** the first separator after a separator-free prefix cuts there *)
Lemma split_app_sep sep a b :
  contains sep a = false →
  split sep (a +:+ String sep b) = a :: split sep b.
Proof.
  induction a as [|c a IH]; simpl.
  - intros _. by destruct (decide (sep = sep)).
  - intros [Hc Ha]%orb_false_elim.
    apply bool_decide_eq_false in Hc.
    destruct (decide (c = sep)); [done|]. by rewrite IH.
Qed.

Lemma join_cons sep v v' (vs : list string) :
  join (String sep EmptyString) (v :: v' :: vs)
  = v +:+ String sep (join (String sep EmptyString) (v' :: vs)).
Proof. reflexivity. Qed.

Lemma split_join sep (values : list string) :
  values ≠ [] →
  Forall (λ v, contains sep v = false) values →
  split sep (join (String sep EmptyString) values) = values.
Proof.
  induction values as [|v vs IH]; [done|]. intros _ Hall.
  apply Forall_cons in Hall as [Hv Hvs].
  destruct vs as [|v' vs].
  - by apply split_no_sep.
  - rewrite join_cons, split_app_sep by done. f_equal. by apply IH.
Qed.

Lemma join_split sep s : join (String sep EmptyString) (split sep s) = s.
Proof.
  induction s as [|c s IH]; [done|]. cbn [split].
  pose proof (split_not_nil sep s) as Hne.
  destruct (decide (c = sep)) as [->|Hc].
  - destruct (split sep s) as [|w ws]; [done|].
    rewrite join_cons, IH. reflexivity.
  - destruct (split sep s) as [|w ws]; [done|].
    destruct ws as [|w' ws].
    + rewrite <- IH. reflexivity.
    + rewrite join_cons in IH |- *. rewrite <- IH. reflexivity.
Qed.

(** segments produced by a split never contain the separator *)
Lemma split_segments_no_sep sep s :
  Forall (λ v, contains sep v = false) (split sep s).
Proof.
  induction s as [|c s IH]; simpl.
  - by repeat constructor.
  - destruct (decide (c = sep)).
    + by constructor.
    + pose proof (split_not_nil sep s) as Hne.
      destruct (split sep s) as [|w ws]; [done|].
      apply Forall_cons in IH as [Hw Hws]. constructor; [|done].
      simpl. rewrite Hw. by rewrite bool_decide_eq_false_2.
Qed.

End PyStrFacts.

(** ** Permission encoding *)

Section Encoding.
Import PyStr PyStrFacts.

Lemma decode_split permission :
  casbin_permission_decode permission
  = split "#" permission ++ empty_strings (5 - length (split "#" permission)).
Proof.
  unfold casbin_permission_decode.
  destruct (decide _) as [Hlt|Hge]; [done|].
  replace (5 - length (split "#" permission)) with 0 by lia.
  by rewrite app_nil_r.
Qed.

Lemma decode_length permission :
  length (casbin_permission_decode permission) = 5 `max` S (count "#" permission).
Proof.
  rewrite decode_split, length_app, split_length.
  unfold empty_strings. rewrite length_replicate. lia.
Qed.

Lemma encode_five_or_more values :
  5 ≤ length values → casbin_permission_encode values = join "#" values.
Proof.
  intros Hlen. unfold casbin_permission_encode.
  destruct (decide _); [lia|done].
Qed.

(** re-encoding a decoded permission that has all five segments gives it back *)
Lemma encode_decode_full permission :
  4 ≤ count "#" permission →
  casbin_permission_encode (casbin_permission_decode permission) = permission.
Proof.
  intros Hcount.
  rewrite encode_five_or_more by (rewrite decode_length; lia).
  rewrite decode_split, split_length.
  replace (5 - S (count "#" permission)) with 0 by lia.
  rewrite app_nil_r. apply join_split.
Qed.

End Encoding.

(** C3: decoding the encoding of five strings, none of which contains the
    hash character, gives back the list of the five strings. *)
Theorem decode_encode_roundtrip (a b c d e : string) :
  PyStr.contains "#" a = false →
  PyStr.contains "#" b = false →
  PyStr.contains "#" c = false →
  PyStr.contains "#" d = false →
  PyStr.contains "#" e = false →
  casbin_permission_decode (casbin_permission_encode [a; b; c; d; e])
  = [a; b; c; d; e].
Proof.
  intros Ha Hb Hc Hd He.
  rewrite encode_five_or_more by (simpl; lia).
  rewrite decode_split, PyStrFacts.split_join; [done|done|].
  by repeat constructor.
Qed.

Lemma decode_encode_roundtrip_witness :
  casbin_permission_decode
    (casbin_permission_encode ["u:alice"; "site.page"; "page:list:name"; "page:list"; ""])
  = ["u:alice"; "site.page"; "page:list:name"; "page:list"; ""].
Proof. apply decode_encode_roundtrip; reflexivity. Defined.

(** C8, the claim as stated fails: a permission with five hash characters
    decodes to six segments. *)
Lemma decode_not_always_five :
  ¬ (∀ permission, length (casbin_permission_decode permission) = 5).
Proof. intros H. specialize (H "a#b#c#d#e#f"). vm_compute in H. lia. Qed.

(** C8, amended: decoding is total and returns the split on the hash
    character, padded on the right with empty strings up to five segments;
    the result has at least five segments, and exactly five precisely when
    the input holds at most four hash characters. *)
Theorem decode_at_least_five (permission : string) :
  casbin_permission_decode permission
    = PyStr.split "#" permission
      ++ empty_strings (5 - length (PyStr.split "#" permission))
  ∧ 5 ≤ length (casbin_permission_decode permission)
  ∧ (length (casbin_permission_decode permission) = 5
     ↔ PyStr.count "#" permission ≤ 4).
Proof.
  split; [apply decode_split|].
  rewrite decode_length. lia.
Qed.

(** ** Action normalization *)

(** C4: [encode_admin_action] maps page to admin:page, each of the seven
    built-in verbs x to admin:page: followed by x, and every other string x
    to admin:page:action: followed by x. *)
Theorem encode_admin_action_shapes :
  encode_admin_action "page" = "admin:page"
  ∧ (∀ x : string,
       x ∈ ["list"; "update"; "bulk_update"; "create"; "bulk_create"; "read"; "submit"] →
       encode_admin_action x = "admin:page:" +:+ x)
  ∧ (∀ x : string,
       x ≠ "page" →
       x ∉ ["list"; "update"; "bulk_update"; "create"; "bulk_create"; "read"; "submit"] →
       encode_admin_action x = "admin:page:action:" +:+ x).
Proof.
  split; [by vm_compute|]. split.
  - intros x Hx. unfold encode_admin_action.
    destruct (decide (x ∈ _)) as [Hpage|_].
    + apply elem_of_singleton in Hpage. subst x.
      set_unfold. intuition discriminate.
    + destruct (decide (x ∈ _)) as [_|Hno]; [done|].
      set_unfold. tauto.
  - intros x Hpage Hx. unfold encode_admin_action.
    destruct (decide (x ∈ _)) as [Hin|_].
    { by apply elem_of_singleton in Hin. }
    destruct (decide (x ∈ _)) as [Hin|_]; [|done].
    set_unfold. tauto.
Qed.

Lemma encode_admin_action_shapes_witness :
  encode_admin_action "bulk_update" = "admin:page:bulk_update"
  ∧ encode_admin_action "export" = "admin:page:action:export".
Proof.
  split.
  - apply (proj1 (proj2 encode_admin_action_shapes)).
    set_unfold. tauto.
  - apply (proj2 (proj2 encode_admin_action_shapes)); [done|].
    set_unfold. intuition discriminate.
Defined.

(** ** Policy engine adapter *)

Section AdapterFacts.

Implicit Types (e : Enforcer) (r : rule) (R : gset rule).

Lemma elem_of_filtered R v r :
  r ∈ get_filtered_policy0 R v ↔ field0_matches v r ∧ r ∈ R.
Proof. unfold get_filtered_policy0. apply elem_of_filter. Qed.

(** a rule that starts with the subject passes the subject filter *)
Lemma subject_rule_matches (subject : string) (fields : list string) :
  field0_matches subject (subject :: fields).
Proof. by right. Qed.

(** Replacing, in a rule set, the rules of a subject by rules which all
    start with the subject: afterwards the subject filter yields the new
    rules and nothing else. *)
Lemma filtered_after_replace R (new : gset rule) (subject : string) :
  (∀ r, r ∈ new → field0_matches subject r) →
  get_filtered_policy0 ((R ∖ get_filtered_policy0 R subject) ∪ new) subject = new.
Proof.
  intros Hnew. apply set_eq. intros r.
  rewrite elem_of_filtered, elem_of_union, elem_of_difference, elem_of_filtered.
  naive_solver.
Qed.

Lemma replace_again R (new : gset rule) (subject : string) :
  (∀ r, r ∈ new → field0_matches subject r) →
  let R' := (R ∖ get_filtered_policy0 R subject) ∪ new in
  (R' ∖ get_filtered_policy0 R' subject) ∪ new = R'.
Proof.
  intros Hnew R'. unfold R' at 2. rewrite filtered_after_replace by done.
  subst R'. set_solver.
Qed.

Lemma new_roles_match (subject role_keys : string) r :
  r ∈ new_roles_of subject role_keys → field0_matches subject r.
Proof.
  unfold new_roles_of. rewrite elem_of_list_to_set, list_elem_of_fmap.
  intros (role & -> & _). apply subject_rule_matches.
Qed.

(** the end state of [casbin_update_subject_roles] *)
Lemma update_subject_roles_state e (subject role_keys : string) :
  casbin_update_subject_roles e subject role_keys
  = mkEnforcer (policy e)
      ((grouping e ∖ get_filtered_policy0 (grouping e) subject)
       ∪ new_roles_of subject role_keys).
Proof.
  unfold casbin_update_subject_roles. fold (new_roles_of subject role_keys).
  destruct (decide (new_roles_of subject role_keys ≠ ∅)) as [Hne|Hemp].
  - unfold add_grouping_policies, delete_roles_for_user. cbn [grouping policy].
    destruct (decide _) as [_|Hmeet]; [done|].
    exfalso. apply Hmeet. intros r Hr Hin.
    apply elem_of_difference in Hin as [HinG Hnot].
    apply Hnot, elem_of_filtered. split; [|done].
    by eapply new_roles_match.
  - apply dec_stable in Hemp. rewrite Hemp.
    unfold delete_roles_for_user. f_equal. set_solver.
Qed.

Lemma new_rules_loop (subject : string) (permissions : list string)
    (acc : gset sequence) :
  foldl (λ new_rules permission,
           let perm := casbin_permission_decode permission in
           new_rules ∪ {[ py_tuple (subject :: perm) ]}) acc permissions
  = acc ∪ new_rules_of subject permissions.
Proof.
  unfold new_rules_of.
  revert acc. induction permissions as [|p ps IH]; intros acc; simpl.
  - set_solver.
  - rewrite IH. set_solver.
Qed.

Lemma elem_of_filtered_policy (rules : gset sequence) (v : string) (s : sequence) :
  s ∈ get_filtered_policy rules v ↔ field0_matches v (items s) ∧ s ∈ rules.
Proof.
  unfold get_filtered_policy.
  apply (elem_of_filter (λ s, field0_matches v (items s))).
Qed.

Lemma new_rules_match (subject : string) (permissions : list string) s :
  s ∈ new_rules_of subject permissions → field0_matches subject (items s).
Proof.
  unfold new_rules_of. rewrite elem_of_list_to_set, list_elem_of_fmap.
  intros (p & -> & _). apply subject_rule_matches.
Qed.

(** what the code asks the engine to remove are tuples *)
Lemma old_rules_are_tuples e (subject : string) s :
  s ∈ (list_to_set (tuple <$> get_permissions_for_user e subject) : gset sequence) →
  ∃ r, s = py_tuple r.
Proof.
  rewrite elem_of_list_to_set, list_elem_of_fmap. intros (x & -> & _).
  by exists (items x).
Qed.

(** a removal of tuples takes no rule that is held as a list *)
Lemma remove_tuples_keeps_lists e (R : gset sequence) r :
  (∀ s, s ∈ R → ∃ r', s = py_tuple r') →
  py_list r ∈ policy e → py_list r ∈ policy (remove_policies e R).
Proof.
  intros Htuples Hin. unfold remove_policies.
  destruct (decide (R ⊆ policy e)); [|done]. cbn [policy].
  apply elem_of_difference. split; [done|].
  intros [r' Heq]%Htuples. discriminate Heq.
Qed.

Lemma add_policies_keeps e (R : gset sequence) s :
  s ∈ policy e → s ∈ policy (add_policies e R).
Proof.
  intros Hin. unfold add_policies.
  destruct (decide (R ## policy e)); [|done]. cbn [policy].
  apply elem_of_union. by left.
Qed.

(** [casbin_update_subject_permissions] removes no rule held as a list *)
Lemma update_keeps_list_rules e (subject : string) (permissions : list string) r :
  py_list r ∈ policy e →
  py_list r ∈ policy (casbin_update_subject_permissions e subject permissions).1.
Proof.
  intros Hin. unfold casbin_update_subject_permissions. cbn [fst].
  set (old := list_to_set (tuple <$> get_permissions_for_user e subject)).
  set (new := foldl _ ∅ permissions).
  set (e1 := if decide (old ∖ new ≠ ∅) then remove_policies e (old ∖ new) else e).
  assert (He1 : py_list r ∈ policy e1).
  { subst e1. destruct (decide (old ∖ new ≠ ∅)); [|done].
    apply remove_tuples_keeps_lists; [|done].
    intros s [Hs _]%elem_of_difference. by eapply old_rules_are_tuples. }
  destruct (decide (new ∖ old ≠ ∅)); [|done].
  by apply add_policies_keeps.
Qed.

(** a rule the engine holds for the subject is read back *)
Lemma held_rule_is_read
    (get_implicit : Enforcer -> string -> list rule) e (subject : string) s :
  s ∈ policy e → field0_matches subject (items s) →
  casbin_permission_encode (drop 1 (items s))
  ∈ casbin_get_subject_permissions get_implicit e subject false.
Proof.
  intros Hin Hmatch. unfold casbin_get_subject_permissions.
  apply list_elem_of_fmap. exists (items s). split; [done|].
  apply list_elem_of_fmap. exists s. split; [done|].
  apply elem_of_elements, elem_of_filtered_policy. by split.
Qed.

Lemma remove_policies_subset e (R : gset sequence) :
  R ⊆ policy e → remove_policies e R = mkEnforcer (policy e ∖ R) (grouping e).
Proof. intros HR. unfold remove_policies. by rewrite decide_True. Qed.

Lemma add_policies_disjoint e (R : gset sequence) :
  R ## policy e → add_policies e R = mkEnforcer (policy e ∪ R) (grouping e).
Proof. intros HR. unfold add_policies. by rewrite decide_True. Qed.

Lemma enforcer_eq e (P : gset sequence) (G : gset rule) :
  policy e = P → grouping e = G → e = mkEnforcer P G.
Proof. destruct e. simpl. by intros -> ->. Qed.

(** The end state of [casbin_update_subject_permissions] on an engine that
    holds every rule of the subject as a tuple, as it does for the rules
    this function itself has added: the rules of the subject are replaced. *)
Lemma update_subject_permissions_on_tuples
    e (subject : string) (permissions : list string) :
  (∀ s, s ∈ get_filtered_policy (policy e) subject → ∃ r, s = py_tuple r) →
  casbin_update_subject_permissions e subject permissions
  = (mkEnforcer
       ((policy e ∖ get_filtered_policy (policy e) subject)
        ∪ new_rules_of subject permissions)
       (grouping e),
     permissions).
Proof.
  intros Htuples. unfold casbin_update_subject_permissions.
  rewrite new_rules_loop, union_empty_l_L.
  set (old := get_filtered_policy (policy e) subject).
  set (new := new_rules_of subject permissions).
  assert (Hsame : (list_to_set (tuple <$> get_permissions_for_user e subject)
                   : gset sequence) = old).
  { apply set_eq. intros s.
    rewrite elem_of_list_to_set, list_elem_of_fmap.
    unfold get_permissions_for_user. fold old. split.
    - intros (x & -> & Hx%elem_of_elements).
      destruct (Htuples x Hx) as [r ->]. exact Hx.
    - intros Hs. exists s. split; [|by apply elem_of_elements].
      by destruct (Htuples s Hs) as [r ->]. }
  rewrite Hsame.
  assert (Hold : old ⊆ policy e).
  { intros s Hs. by apply elem_of_filtered_policy in Hs as [_ ?]. }
  assert (Hnew : ∀ s, s ∈ new → s ∈ policy e → s ∈ old).
  { intros s Hs Hin. apply elem_of_filtered_policy. split; [|done].
    by eapply new_rules_match. }
  clearbody old new. f_equal.
  set (e1 := if decide (old ∖ new ≠ ∅) then remove_policies e (old ∖ new) else e).
  assert (He1 : e1 = mkEnforcer (policy e ∖ (old ∖ new)) (grouping e)).
  { subst e1. destruct (decide (old ∖ new ≠ ∅)) as [_|Hemp].
    - apply remove_policies_subset. set_solver.
    - apply dec_stable in Hemp. rewrite Hemp, difference_empty_L.
      by apply enforcer_eq. }
  rewrite He1. clearbody e1. clear He1 e1.
  assert (Hfinal : (policy e ∖ (old ∖ new)) ∪ (new ∖ old) = (policy e ∖ old) ∪ new).
  { apply set_eq. intros s.
    destruct (decide (s ∈ new)); destruct (decide (s ∈ old)); set_solver. }
  destruct (decide (new ∖ old ≠ ∅)) as [_|Hemp].
  - rewrite add_policies_disjoint by (cbn [policy]; set_solver).
    cbn [policy grouping]. by rewrite Hfinal.
  - apply dec_stable in Hemp. rewrite <- Hfinal, Hemp, union_empty_r_L. done.
Qed.

End AdapterFacts.

(** C6: [casbin_update_subject_roles] removes every role membership of the
    subject and adds one membership (subject, r:role) per non-empty
    comma-separated segment of [role_keys]; with the empty string the
    subject is left without memberships, with a,b it has exactly r:a and
    r:b, and a second call with the same [role_keys] changes nothing. *)
Theorem update_subject_roles_replaces
    (enforcer : Enforcer) (subject role_keys : string) :
  let new_roles : gset rule :=
    list_to_set ((λ role, [subject; "r:" +:+ role]) <$>
                 filter (λ role, role ≠ EmptyString) (PyStr.split "," role_keys)) in
  let after := casbin_update_subject_roles enforcer subject role_keys in
  grouping after
    = (grouping enforcer ∖ get_filtered_policy0 (grouping enforcer) subject) ∪ new_roles
  ∧ policy after = policy enforcer
  ∧ list_to_set (get_filtered_grouping_policy after subject) = new_roles
  ∧ get_filtered_grouping_policy
      (casbin_update_subject_roles enforcer subject "") subject = []
  ∧ list_to_set (get_filtered_grouping_policy
                   (casbin_update_subject_roles enforcer subject "a,b") subject)
    = ({[ [subject; "r:a"]; [subject; "r:b"] ]} : gset rule)
  ∧ casbin_update_subject_roles after subject role_keys = after.
Proof.
  intros new_roles after. subst after.
  change new_roles with (new_roles_of subject role_keys). clear new_roles.
  assert (Hread : ∀ keys,
    get_filtered_policy0
      (grouping (casbin_update_subject_roles enforcer subject keys)) subject
    = new_roles_of subject keys).
  { intros keys. rewrite update_subject_roles_state. cbn [grouping].
    apply filtered_after_replace. intros r. apply new_roles_match. }
  repeat split.
  - by rewrite update_subject_roles_state.
  - by rewrite update_subject_roles_state.
  - unfold get_filtered_grouping_policy.
    by rewrite list_to_set_elements_L, Hread.
  - unfold get_filtered_grouping_policy. rewrite Hread.
    change (new_roles_of subject "") with (∅ : gset rule).
    apply elements_empty.
  - unfold get_filtered_grouping_policy.
    rewrite list_to_set_elements_L, Hread.
    change (new_roles_of subject "a,b")
      with (list_to_set [[subject; "r:a"]; [subject; "r:b"]] : gset rule).
    set_solver.
  - rewrite (update_subject_roles_state (casbin_update_subject_roles _ _ _)).
    rewrite (update_subject_roles_state enforcer). cbn [policy grouping].
    f_equal. apply replace_again. intros r. apply new_roles_match.
Qed.

(** C5, at an engine that holds a rule of the subject as a list, as rules
    loaded from the policy store are held: the code asks the engine to
    remove the tuple of the old rule, the engine does not find a tuple and
    refuses, and the old permission is still there after the update.  What
    [casbin_get_subject_permissions] then reads is not the list that was
    passed, although that list is what the function returns. *)
Theorem update_subject_permissions_keeps_old_rule :
  let enforcer :=
    mkEnforcer {[ py_list ["u:bob"; "site.old"; "admin:page"; ""; ""; ""] ]} ∅ in
  let permissions := ["site.home#admin:page###"; "site.user#admin:list###"] in
  let updated := casbin_update_subject_permissions enforcer "u:bob" permissions in
  let read := casbin_get_subject_permissions (λ _ _, []) updated.1 "u:bob" false in
  updated.2 = permissions
  ∧ py_list ["u:bob"; "site.old"; "admin:page"; ""; ""; ""] ∈ policy updated.1
  ∧ "site.old#admin:page###" ∈ read
  ∧ ("site.old#admin:page###" ∉ permissions)
  ∧ (list_to_set read : gset string) ≠ list_to_set permissions.
Proof.
  intros enforcer permissions updated read.
  assert (Hheld : py_list ["u:bob"; "site.old"; "admin:page"; ""; ""; ""]
                  ∈ policy updated.1).
  { apply update_keeps_list_rules. subst enforcer. cbn [policy].
    by apply elem_of_singleton_2. }
  assert (Hread : "site.old#admin:page###" ∈ read).
  { apply (held_rule_is_read (λ _ _, []) updated.1 "u:bob" _ Hheld). by right. }
  assert (Hout : "site.old#admin:page###" ∉ permissions).
  { intros Hin. repeat (apply elem_of_cons in Hin as [Hin|Hin]; [discriminate Hin|]).
    by apply elem_of_nil in Hin. }
  split; [done|]. split; [done|]. split; [done|]. split; [done|].
  intros Heq. apply Hout. apply (elem_of_list_to_set (C:=gset string)).
  rewrite <- Heq. by apply elem_of_list_to_set.
Qed.

(** *** The adapter on a small engine *)

Section AdapterExamples.

Let engine : Enforcer :=
  mkEnforcer
    {[ py_tuple ["u:bob"; "site.old"; "admin:page"; ""; ""; ""];
       py_list ["u:amy"; "site.home"; "admin:page"; ""; ""; ""] ]}
    {[ ["u:bob"; "r:old"]; ["u:amy"; "r:staff"] ]}.

(** empty segments between commas are skipped; other subjects keep their roles *)
Example update_roles_example :
  grouping (casbin_update_subject_roles engine "u:bob" "a,,b")
  = {[ ["u:amy"; "r:staff"]; ["u:bob"; "r:a"]; ["u:bob"; "r:b"] ]}.
Proof. vm_compute; reflexivity. Qed.

Example update_roles_empty :
  grouping (casbin_update_subject_roles engine "u:bob" "")
  = {[ ["u:amy"; "r:staff"] ]}.
Proof. vm_compute; reflexivity. Qed.

(** bob's old rule is held as a tuple: it goes, the new ones come, amy
    keeps hers *)
Example update_permissions_example :
  let after :=
    policy (casbin_update_subject_permissions engine "u:bob"
              ["site.home#admin:page###"; "site.user#admin:list###"]).1 in
  (py_tuple ["u:bob"; "site.old"; "admin:page"; ""; ""; ""] ∉ after)
  ∧ py_list ["u:amy"; "site.home"; "admin:page"; ""; ""; ""] ∈ after
  ∧ py_tuple ["u:bob"; "site.home"; "admin:page"; ""; ""; ""] ∈ after
  ∧ py_tuple ["u:bob"; "site.user"; "admin:list"; ""; ""; ""] ∈ after.
Proof.
  intros after. subst after.
  rewrite update_subject_permissions_on_tuples.
  2:{ intros s [Hmatch Hs]%elem_of_filtered_policy.
      apply elem_of_union in Hs as [->%elem_of_singleton| ->%elem_of_singleton].
      - by eexists.
      - destruct Hmatch as [Hmatch|Hmatch]; discriminate Hmatch. }
  cbn [fst policy].
  assert (Hnew : new_rules_of "u:bob"
                   ["site.home#admin:page###"; "site.user#admin:list###"]
                 = {[ py_tuple ["u:bob"; "site.home"; "admin:page"; ""; ""; ""];
                      py_tuple ["u:bob"; "site.user"; "admin:list"; ""; ""; ""] ]}).
  { unfold new_rules_of. cbn [fmap list_fmap list_to_set].
    change (casbin_permission_decode "site.home#admin:page###")
      with ["site.home"; "admin:page"; ""; ""; ""].
    change (casbin_permission_decode "site.user#admin:list###")
      with ["site.user"; "admin:list"; ""; ""; ""].
    by rewrite union_empty_r_L. }
  rewrite Hnew. clear Hnew.
  split; [|split; [|split]].
  - rewrite elem_of_union, elem_of_difference, elem_of_filtered_policy.
    intros [[_ Hnot]|Hin].
    + apply Hnot. split; [by right|]. apply elem_of_union. left.
      by apply elem_of_singleton.
    + apply elem_of_union in Hin as [Hin%elem_of_singleton|Hin%elem_of_singleton];
        discriminate Hin.
  - apply elem_of_union. left. apply elem_of_difference. split.
    + apply elem_of_union. right. by apply elem_of_singleton.
    + intros [[Hmatch|Hmatch] _]%elem_of_filtered_policy; discriminate Hmatch.
  - apply elem_of_union. right. apply elem_of_union. left.
    by apply elem_of_singleton.
  - apply elem_of_union. right. apply elem_of_union. right.
    by apply elem_of_singleton.
Qed.

End AdapterExamples.

(** ** Field-permission resolver *)

Section DenyFields.

Variable GUEST : string.
Variable Schema : Type.
Variable get_schema_fields_name_label :
  Schema -> string -> bool -> list string -> list (string * string).

Abbreviation get_deny := (get_deny_fields GUEST get_schema_fields_name_label).

(** every call leaves an entry for its action, holding what it returned *)
Lemma get_deny_fields_caches (self : AuthModelAdmin Schema) auth request action :
  cache_entry self (request_after (get_deny self auth request action)) action
  = Some (deny_fields (get_deny self auth request action)).
Proof.
  unfold cache_entry, get_deny_fields.
  destruct (default ∅ (scope request !! _) !! action) as [fields|] eqn:Hhit.
  - exact Hhit.
  - cbn [request_after scope deny_fields].
    rewrite lookup_insert_eq. cbn [from_option id].
    by rewrite lookup_insert_eq.
Qed.

(** a call that finds an entry returns it, asks nothing, changes nothing *)
Lemma get_deny_fields_hit (self : AuthModelAdmin Schema) auth request action fields :
  cache_entry self request action = Some fields →
  get_deny self auth request action = mkDenyResult request fields [].
Proof.
  unfold cache_entry, get_deny_fields. by intros ->.
Qed.

End DenyFields.

(** C2: a second [get_deny_fields] call for the same admin, request and
    action returns the set the first call returned, without any enforcer
    call and without touching the request, whatever the enforcer and the
    identity lookup would answer by then; this holds as well when the first
    result is the empty set, because the first call always leaves an entry
    for the action in the request scope. *)
Theorem get_deny_fields_memoized
    (GUEST : string) (Schema : Type)
    (get_schema_fields_name_label :
       Schema -> string -> bool -> list string -> list (string * string))
    (self : AuthModelAdmin Schema) (auth1 auth2 : Auth)
    (request : Request) (action : string) :
  let first := get_deny_fields GUEST get_schema_fields_name_label self auth1 request action in
  let second :=
    get_deny_fields GUEST get_schema_fields_name_label self auth2
      (request_after first) action in
  deny_fields second = deny_fields first
  ∧ enforcer_queries second = []
  ∧ request_after second = request_after first
  ∧ cache_entry self (request_after first) action = Some (deny_fields first)
  ∧ (deny_fields first = ∅ → deny_fields second = ∅ ∧ enforcer_queries second = []).
Proof.
  intros first second.
  pose proof (get_deny_fields_caches GUEST Schema get_schema_fields_name_label
                self auth1 request action) as Hentry.
  fold first in Hentry.
  assert (Hsecond : second = mkDenyResult (request_after first) (deny_fields first) []).
  { subst second. by apply get_deny_fields_hit. }
  rewrite Hsecond. cbn [deny_fields enforcer_queries request_after].
  repeat split; done.
Qed.

(** C9: for an action other than list, filter, create, update and read that
    has no entry in the request-scoped cache, [get_deny_fields] returns the
    empty set and makes no enforcer call. *)
Theorem get_deny_fields_unrecognized
    (GUEST : string) (Schema : Type)
    (get_schema_fields_name_label :
       Schema -> string -> bool -> list string -> list (string * string))
    (self : AuthModelAdmin Schema) (auth : Auth)
    (request : Request) (action : string) :
  action ∉ ["list"; "filter"; "create"; "update"; "read"] →
  cache_entry self request action = None →
  let result := get_deny_fields GUEST get_schema_fields_name_label self auth request action in
  deny_fields result = ∅ ∧ enforcer_queries result = [].
Proof.
  intros Haction Hmiss result. subst result.
  unfold cache_entry in Hmiss. unfold get_deny_fields. rewrite Hmiss.
  cbn [deny_fields enforcer_queries].
  repeat (destruct (decide (action = _)) as [->|_];
          [exfalso; apply Haction; set_unfold; tauto|]).
  done.
Qed.

Section DenyExamples.
Import DenyExample.

(** a guest denied everything: both update fields are denied, two queries *)
Example deny_update_guest :
  deny_fields (deny deny_all fresh_request "update") = {[ "name"; "salary" ]}
  ∧ enforcer_queries (deny deny_all fresh_request "update")
    = [("u:guest", "site.user", "page:update:name", "page:update");
       ("u:guest", "site.user", "page:update:salary", "page:update")].
Proof. split; vm_compute; reflexivity. Qed.

(** the policy turns permissive in mid-request: the cached set is returned *)
Example deny_update_cached :
  deny_fields (deny allow_all (request_after (deny deny_all fresh_request "update")) "update")
  = {[ "name"; "salary" ]}.
Proof. vm_compute; reflexivity. Qed.

(** salary is excluded from the read fields, so it is never checked *)
Example read_fields_exclude_salary :
  fst <$> read_permission_fields (list string) fields_name_label user_admin = ["name"].
Proof. vm_compute; reflexivity. Qed.

End DenyExamples.

Lemma get_deny_fields_memoized_witness :
  deny_fields
    (DenyExample.deny DenyExample.deny_all
       (request_after (DenyExample.deny DenyExample.allow_all
                         DenyExample.fresh_request "list")) "list") = ∅
  ∧ enforcer_queries
      (DenyExample.deny DenyExample.deny_all
         (request_after (DenyExample.deny DenyExample.allow_all
                           DenyExample.fresh_request "list")) "list") = [].
Proof.
  apply (get_deny_fields_memoized "guest" (list string)
           DenyExample.fields_name_label DenyExample.user_admin
           DenyExample.allow_all DenyExample.deny_all
           DenyExample.fresh_request "list").
  vm_compute; reflexivity.
Defined.

Lemma get_deny_fields_unrecognized_witness :
  deny_fields (DenyExample.deny DenyExample.deny_all DenyExample.fresh_request "export") = ∅
  ∧ enforcer_queries
      (DenyExample.deny DenyExample.deny_all DenyExample.fresh_request "export") = [].
Proof.
  apply (get_deny_fields_unrecognized "guest" (list string)
           DenyExample.fields_name_label DenyExample.user_admin
           DenyExample.deny_all DenyExample.fresh_request "export").
  - set_unfold. intuition discriminate.
  - vm_compute; reflexivity.
Defined.

(** ** Option trees: the values *)

Section OptionNodeInduction.

Variable P : option_node -> Prop.
Hypothesis Hnode :
  ∀ o l v s cs, Forall P (default [] cs) → P (OptionNode o l v s cs).

(** induction over an option and, with it, all options below *)
Lemma option_node_induction : ∀ option, P option.
Proof.
  fix IH 1. intros [o l v s cs]. apply Hnode.
  destruct cs as [ks|]; [|constructor]. simpl.
  induction ks as [|k ks IHks]; constructor; [apply IH|apply IHks].
Qed.

End OptionNodeInduction.

Section FilterValues.

Variable filter_func : option_node -> bool.

Lemma filter_loop_v_map kept (options : list option_node) :
  filter_loop_v kept filter_func options
  = kept <$> List.filter filter_func options.
Proof.
  induction options as [|n ns IH]; simpl; [done|].
  destruct (filter_func n); simpl; by rewrite IH.
Qed.

(** the returned list: the options that pass, each with children reassigned *)
Lemma filter_options_map (options : list option_node) :
  filter_options options filter_func
  = reassign_children filter_func <$> List.filter filter_func options.
Proof. apply filter_loop_v_map. Qed.

Lemma filter_options_nil : filter_options [] filter_func = [].
Proof. reflexivity. Qed.

Lemma filter_options_cons n (ns : list option_node) :
  filter_options (n :: ns) filter_func
  = if filter_func n
    then reassign_children filter_func n :: filter_options ns filter_func
    else filter_options ns filter_func.
Proof. unfold filter_options. simpl. by destruct (filter_func n). Qed.

Lemma reassign_children_fields n :
  node_oid (reassign_children filter_func n) = node_oid n
  ∧ label (reassign_children filter_func n) = label n
  ∧ value (reassign_children filter_func n) = value n
  ∧ sort (reassign_children filter_func n) = sort n.
Proof. destruct n as [o l v s [[|k ks]|]]; done. Qed.

(** the children a kept option holds afterwards are its filtered children *)
Lemma reassign_children_kids n :
  kids (reassign_children filter_func n) = filter_options (kids n) filter_func.
Proof. destruct n as [o l v s [[|k ks]|]]; done. Qed.

Lemma reassign_children_children n :
  children (reassign_children filter_func n)
  = match children n with
    | Some (k :: ks) => Some (filter_options (k :: ks) filter_func)
    | other => other
    end.
Proof. destruct n as [o l v s [[|k ks]|]]; done. Qed.

Lemma shown_after_oid n : node_oid (shown_after filter_func n) = node_oid n.
Proof.
  unfold shown_after. destruct (filter_func n); [|done].
  apply reassign_children_fields.
Qed.

Lemma elem_of_filter_options n' (options : list option_node) :
  n' ∈ filter_options options filter_func
  ↔ ∃ n, n ∈ options ∧ filter_func n = true ∧ n' = reassign_children filter_func n.
Proof.
  rewrite filter_options_map, list_elem_of_fmap.
  split.
  - intros (n & -> & Hn). apply list_elem_of_In, filter_In in Hn as [Hn Hf].
    exists n. by rewrite list_elem_of_In.
  - intros (n & Hn & Hf & ->). exists n. split; [done|].
    apply list_elem_of_In, filter_In. by rewrite <- list_elem_of_In.
Qed.

End FilterValues.

(** the value paths of the filtered forest are the value paths of the
    forest on which every value is allowed *)
Lemma filter_options_paths_iff (permissions : list string) :
  ∀ (path : list string) (options : list option_node),
    has_path path (filter_options options (by_value permissions))
    ↔ has_path path options ∧ Forall (λ v, v ∈ permissions) path.
Proof.
  induction path as [|v rest IH]; intros options; simpl; [tauto|].
  split.
  - intros (n' & Hin & Hv & Hrest).
    apply elem_of_filter_options in Hin as (n & Hn & Hf & ->).
    destruct (reassign_children_fields (by_value permissions) n) as (_ & _ & Hval & _).
    rewrite Hval in Hv. rewrite reassign_children_kids in Hrest.
    assert (Hallowed : v ∈ permissions).
    { subst v. unfold by_value, value_in in Hf. by apply bool_decide_eq_true in Hf. }
    destruct Hrest as [->|Hrest].
    + split; [exists n; auto|]. by repeat constructor.
    + apply IH in Hrest as [Hpath Hall].
      split; [exists n; auto|]. by constructor.
  - intros [(n & Hn & Hv & Hrest) Hall].
    apply Forall_cons in Hall as [Hallowed Hall].
    exists (reassign_children (by_value permissions) n).
    destruct (reassign_children_fields (by_value permissions) n) as (_ & _ & Hval & _).
    rewrite Hval, reassign_children_kids. split; [|split; [done|]].
    + apply elem_of_filter_options. exists n. split; [done|]. split; [|done].
      unfold by_value, value_in. apply bool_decide_eq_true. by subst v.
    + destruct Hrest as [->|Hrest]; [by left|]. right. apply IH. by split.
Qed.

(** C1, the claim as stated fails.  Input: a grandparent holding a parent
    holding a leaf, only the leaf's value allowed.  The rule of the claim
    keeps the grandparent (a descendant survives) and with it the path down
    to the leaf; the code drops the grandparent and returns the empty
    list. *)
Lemma survival_rule_fails :
  ¬ (∀ (permissions : list string) (options : list option_node) (n : option_node),
       n ∈ options →
       (node_oid n ∈ node_oid <$> filter_options options (by_value permissions)
        ↔ survives_spec permissions n = true))
  ∧ ¬ (∀ (permissions : list string) (g p l : option_node),
         children g = Some [p] → children p = Some [l] →
         value l ∈ permissions → value g ∉ permissions →
         has_path [value g; value p; value l]
           (filter_options [g] (by_value permissions))).
Proof.
  split.
  - intros H.
    specialize (H ["site.user#admin:export###"] [TreeExample.grandparent]
                  TreeExample.grandparent).
    destruct H as [_ H]; [by left|].
    assert (Hin : 0 ∈ ([] : list oid)); [|by apply elem_of_nil in Hin].
    apply H. vm_compute. reflexivity.
  - intros H.
    specialize (H ["site.user#admin:export###"] TreeExample.grandparent
                  TreeExample.parent TreeExample.leaf eq_refl eq_refl).
    destruct H as (n & Hn & _).
    + by left.
    + intros Hin%list_elem_of_singleton. discriminate Hin.
    + change (filter_options [TreeExample.grandparent]
                (by_value ["site.user#admin:export###"])) with (@nil option_node) in Hn.
      by apply elem_of_nil in Hn.
Qed.

Example filter_drops_path_to_allowed_leaf :
  by_value ["site.user#admin:export###"] TreeExample.leaf = true
  ∧ filter_options [TreeExample.grandparent] (by_value ["site.user#admin:export###"]) = [].
Proof. split; vm_compute; reflexivity. Qed.

(** C1, amended: a listed option is kept exactly when its own value is
    allowed; the children a kept option holds are its children filtered by
    the same rule; so the filtered forest has exactly the value paths of the
    input on which every value, from the listed option down, is allowed. *)
Theorem filter_options_keeps_allowed_paths
    (permissions : list string) (options : list option_node) :
  let filter_func := by_value permissions in
  (∀ n', n' ∈ filter_options options filter_func
         ↔ ∃ n, n ∈ options ∧ value n ∈ permissions
                ∧ n' = reassign_children filter_func n)
  ∧ (∀ n, kids (reassign_children filter_func n)
          = filter_options (kids n) filter_func)
  ∧ (∀ path, has_path path (filter_options options filter_func)
             ↔ has_path path options ∧ Forall (λ v, v ∈ permissions) path).
Proof.
  intros filter_func. split; [|split].
  - intros n'. rewrite elem_of_filter_options.
    unfold filter_func, by_value, value_in.
    by setoid_rewrite bool_decide_eq_true.
  - apply reassign_children_kids.
  - intros path. apply filter_options_paths_iff.
Qed.

Lemma filter_options_keeps_allowed_paths_witness :
  has_path ["site#admin:page###"; "site.user#admin:page###"]
    (filter_options [TreeExample.grandparent]
       (by_value ["site#admin:page###"; "site.user#admin:page###"])).
Proof.
  apply (filter_options_keeps_allowed_paths
           ["site#admin:page###"; "site.user#admin:page###"]
           [TreeExample.grandparent]).
  split.
  - exists TreeExample.grandparent. split; [by left|]. split; [done|]. right.
    exists TreeExample.parent. split; [by left|]. split; [done|]. by left.
  - repeat constructor.
Defined.

(** ** Option trees: the store *)

Section Snapshots.

Implicit Types (h : store) (n : option_node) (ns : list option_node).

Lemma represents_inv h n :
  represents h n →
  h !! node_oid n = Some (dict_of n) ∧ Forall (represents h) (kids n).
Proof. by inversion 1. Qed.

Lemma oids_unfold n : oids n = node_oid n :: oids_list (kids n).
Proof. by destruct n as [o l v s [ks|]]. Qed.

Lemma oids_list_cons n ns : oids_list (n :: ns) = oids n ++ oids_list ns.
Proof. reflexivity. Qed.

Lemma elem_of_oids_list o ns :
  o ∈ oids_list ns ↔ ∃ n, n ∈ ns ∧ o ∈ oids n.
Proof.
  unfold oids_list. rewrite list_elem_of_In, in_flat_map.
  by setoid_rewrite <- list_elem_of_In.
Qed.

(** a snapshot only depends on the objects it shows *)
Lemma represents_frame h h' :
  ∀ n, represents h n → (∀ o, o ∈ oids n → h' !! o = h !! o) → represents h' n.
Proof.
  apply (option_node_induction
           (λ n, represents h n → (∀ o, o ∈ oids n → h' !! o = h !! o)
                 → represents h' n)).
  intros o l v s cs IH Hrep Hsame.
  apply represents_inv in Hrep as [Hobj Hkids].
  constructor.
  - rewrite Hsame; [done|]. rewrite oids_unfold. by left.
  - change (kids (OptionNode o l v s cs)) with (default [] cs) in *.
    apply Forall_forall. intros k Hk.
    rewrite Forall_forall in IH, Hkids.
    apply IH; [done|by apply Hkids|].
    intros o' Ho'. apply Hsame. rewrite oids_unfold. right.
    apply elem_of_oids_list. by exists k.
Qed.

Lemma represents_frame_list h h' ns :
  Forall (represents h) ns →
  (∀ o, o ∈ oids_list ns → h' !! o = h !! o) →
  Forall (represents h') ns.
Proof.
  rewrite !Forall_forall. intros Hrep Hsame n Hn.
  apply (represents_frame h); [by apply Hrep|].
  intros o Ho. apply Hsame, elem_of_oids_list. by exists n.
Qed.

Lemma nesting_unfold n :
  nesting n = match kids n with
              | [] => 0
              | _ :: _ => S (max_list (nesting <$> kids n))
              end.
Proof. by destruct n as [o l v s [[|k ks]|]]. Qed.

End Snapshots.

Section FilterStore.

Variable filter_func : option_node -> bool.

(** filtering shows no object that was not there *)
Lemma oids_reassign_children :
  ∀ n o, o ∈ oids (reassign_children filter_func n) → o ∈ oids n.
Proof.
  apply (option_node_induction
           (λ n, ∀ o, o ∈ oids (reassign_children filter_func n) → o ∈ oids n)).
  intros o l v s cs IH o'.
  rewrite !oids_unfold, reassign_children_kids.
  destruct (reassign_children_fields filter_func (OptionNode o l v s cs)) as [-> _].
  rewrite !elem_of_cons. intros [->|Hin]; [by left|]. right.
  change (kids (OptionNode o l v s cs)) with (default [] cs) in *.
  apply elem_of_oids_list in Hin as (k' & Hk' & Ho').
  apply elem_of_filter_options in Hk' as (k & Hk & _ & ->).
  apply elem_of_oids_list. exists k. split; [done|].
  rewrite Forall_forall in IH. by apply IH.
Qed.

Lemma oids_filter_options (ns : list option_node) o :
  o ∈ oids_list (filter_options ns filter_func) → o ∈ oids_list ns.
Proof.
  rewrite !elem_of_oids_list. intros (n' & Hn' & Ho).
  apply elem_of_filter_options in Hn' as (n & Hn & _ & ->).
  exists n. split; [done|]. by apply oids_reassign_children.
Qed.

Lemma oids_shown_after n o : o ∈ oids (shown_after filter_func n) → o ∈ oids n.
Proof.
  unfold shown_after. destruct (filter_func n); [|done].
  apply oids_reassign_children.
Qed.

(** the kept options are among the options as shown afterwards *)
Lemma Forall_shown_filter (Q : option_node -> Prop) (ns : list option_node) :
  Forall Q (shown_after filter_func <$> ns) →
  Forall Q (filter_options ns filter_func).
Proof.
  rewrite !Forall_forall. intros HQ n' Hn'.
  apply elem_of_filter_options in Hn' as (n & Hn & Hf & ->).
  apply HQ, list_elem_of_fmap. exists n. split; [|done].
  unfold shown_after. by rewrite Hf.
Qed.

End FilterStore.

Section FilterRefinement.

Variable permissions : list string.

Let fv := by_value permissions.
Let fh := dict_value_in permissions.

Implicit Types (h : store) (n : option_node) (ns : list option_node).

(** one turn of the loop, by the three ways it can go *)
Lemma filter_loop_skip rec o rest h result d :
  h !! o = Some d → fh d = false →
  filter_loop rec fh (o :: rest) h result = filter_loop rec fh rest h result.
Proof. intros Hd Hf. simpl. rewrite Hd. simpl. by rewrite Hf. Qed.

Lemma filter_loop_keep_plain rec o rest h result d :
  h !! o = Some d → fh d = true →
  d_children d = None ∨ d_children d = Some [] →
  filter_loop rec fh (o :: rest) h result
  = filter_loop rec fh rest h (result ++ [o]).
Proof.
  intros Hd Hf Hc. simpl. rewrite Hd. simpl. rewrite Hf. simpl.
  by destruct Hc as [-> | ->].
Qed.

Lemma filter_loop_keep_children rec o rest h result d c cs h1 kept h2 :
  h !! o = Some d → fh d = true →
  d_children d = Some (c :: cs) →
  rec (c :: cs) h = Some (h1, kept) →
  assign_children o kept h1 = Some h2 →
  filter_loop rec fh (o :: rest) h result
  = filter_loop rec fh rest h2 (result ++ [o]).
Proof.
  intros Hd Hf Hc Hrec Hassign. simpl. rewrite Hd. simpl. rewrite Hf. simpl.
  rewrite Hc, Hrec. simpl. by rewrite Hassign.
Qed.

Abbreviation refines := (refines_values fv).

Lemma max_list_cons (x : nat) (l : list nat) :
  max_list (x :: l) = x `max` max_list l.
Proof. reflexivity. Qed.

Lemma filter_loop_refines rec (bound : nat) :
  (∀ ks h, well_formed h ks → max_list (nesting <$> ks) < bound →
           refines rec [] ks h) →
  ∀ ns h result,
    well_formed h ns → max_list (nesting <$> ns) < S bound →
    refines (λ options h, filter_loop rec fh options h result) result ns h.
Proof.
  intros Hrec. induction ns as [|n ns IH]; intros h result [Hrep Hnodup] Hdepth.
  { exists h. simpl. by rewrite app_nil_r. }
  apply Forall_cons in Hrep as [Hn Hns].
  rewrite oids_list_cons in Hnodup.
  apply NoDup_app in Hnodup as (Hnd_n & Hdisj & Hnd_ns).
  rewrite fmap_cons, max_list_cons in Hdepth.
  destruct (represents_inv _ _ Hn) as [Hobj Hkids].
  assert (Hfd : fh (dict_of n) = fv n) by done.
  unfold refines_values.
  rewrite fmap_cons, filter_options_cons.
  fold fv. destruct (fv n) eqn:Hf.
  - (* kept *)
    destruct (kids n) as [|k ks] eqn:Hk.
    + (* nothing to recurse into *)
      destruct (IH h (result ++ [node_oid n])) as (h' & Hrun & Hshown & Hframe);
        [done|lia|].
      assert (Hplain : reassign_children fv n = n).
      { destruct n as [o l v s [[|? ?]|]]; done. }
      exists h'. split; [|split].
      * rewrite (filter_loop_keep_plain rec (node_oid n) (node_oid <$> ns) h
                   result (dict_of n)); [|done|done|].
        -- rewrite Hrun, Hplain, <- app_assoc. done.
        -- destruct n as [o l v s [[|? ?]|]]; simpl; auto. done.
      * rewrite fmap_cons. constructor; [|done].
        unfold shown_after. rewrite Hf, Hplain.
        apply (represents_frame h); [done|]. intros o Ho. apply Hframe.
        intros Hin. by eapply Hdisj.
      * intros o Ho. apply Hframe. intros Hin. apply Ho.
        rewrite oids_list_cons. apply elem_of_app. by right.
    + (* recurse into the children *)
      rewrite oids_unfold, Hk in Hnd_n. apply NoDup_cons in Hnd_n as [Hfresh Hnd_ks].
      rewrite nesting_unfold, Hk in Hdepth.
      destruct (Hrec (k :: ks) h) as (h1 & Hrun1 & Hshown1 & Hframe1).
      { by split. }
      { lia. }
      rewrite app_nil_l in Hrun1.
      set (kept := node_oid <$> filter_options (k :: ks) fv) in *.
      assert (Hobj1 : h1 !! node_oid n = Some (dict_of n)).
      { by rewrite Hframe1. }
      set (h2 := <[node_oid n := dict_of (reassign_children fv n)]> h1).
      assert (Hassign : assign_children (node_oid n) kept h1 = Some h2).
      { unfold assign_children. rewrite Hobj1. simpl. subst h2 kept.
        do 2 f_equal. destruct n as [o l v s [[|? ?]|]]; try done.
        simpl in Hk. injection Hk as -> ->. done. }
      assert (Hchildren : d_children (dict_of n) = Some (node_oid k :: (node_oid <$> ks))).
      { destruct n as [o l v s [[|? ?]|]]; try done.
        simpl in Hk. injection Hk as -> ->. done. }
      assert (Hrep2 : represents h2 (reassign_children fv n)).
      { constructor.
        - destruct (reassign_children_fields fv n) as [-> _].
          subst h2. by rewrite lookup_insert_eq.
        - rewrite reassign_children_kids, Hk.
          apply (represents_frame_list h1).
          + by apply Forall_shown_filter.
          + intros o Ho. subst h2. rewrite lookup_insert_ne; [done|].
            intros <-. apply Hfresh. by apply oids_filter_options in Ho. }
      assert (Hns2 : Forall (represents h2) ns).
      { apply (represents_frame_list h); [done|]. intros o Ho.
        assert (o ∉ oids n) as Hnot by (intros Hin; by eapply Hdisj).
        rewrite oids_unfold, Hk in Hnot. apply not_elem_of_cons in Hnot as [Hne Hnot].
        subst h2. rewrite lookup_insert_ne by done. by apply Hframe1. }
      destruct (IH h2 (result ++ [node_oid n])) as (h' & Hrun & Hshown & Hframe);
        [done|lia|].
      exists h'. split; [|split].
      * rewrite (filter_loop_keep_children rec (node_oid n) (node_oid <$> ns) h
                   result (dict_of n) (node_oid k) (node_oid <$> ks) h1 kept h2);
          try done.
        rewrite Hrun, <- app_assoc, fmap_cons.
        destruct (reassign_children_fields fv n) as [-> _]. done.
      * rewrite fmap_cons. constructor; [|done].
        unfold shown_after. rewrite Hf.
        apply (represents_frame h2); [done|]. intros o Ho. apply Hframe.
        intros Hin. apply oids_reassign_children in Ho. by eapply Hdisj.
      * intros o Ho. rewrite oids_list_cons, oids_unfold, Hk in Ho.
        rewrite Hframe by (intros Hin; apply Ho; set_solver).
        subst h2. rewrite lookup_insert_ne by (intros <-; apply Ho; set_solver).
        apply Hframe1. intros Hin. apply Ho. set_solver.
  - (* skipped *)
    destruct (IH h result) as (h' & Hrun & Hshown & Hframe); [done|lia|].
    exists h'. split; [|split].
    + by rewrite (filter_loop_skip rec (node_oid n) (node_oid <$> ns) h
                    result (dict_of n)).
    + rewrite fmap_cons. constructor; [|done].
      unfold shown_after. rewrite Hf.
      apply (represents_frame h); [done|]. intros o Ho. apply Hframe.
      intros Hin. by eapply Hdisj.
    + intros o Ho. apply Hframe. intros Hin. apply Ho.
      rewrite oids_list_cons. apply elem_of_app. by right.
Qed.

(** [filter_options] on the store refines [filter_options] on values, for
    every recursion limit above the nesting of the tree *)
Lemma filter_options_h_refines (limit : nat) :
  ∀ ns h, well_formed h ns → max_list (nesting <$> ns) < limit →
          refines (filter_options_h limit fh) [] ns h.
Proof.
  induction limit as [|limit IH]; intros ns h Hwf Hdepth; [lia|].
  apply (filter_loop_refines (filter_options_h limit fh) limit IH ns h []);
    done.
Qed.

End FilterRefinement.

(** ** Reading snapshots back from the store *)

Section SnapshotFacts.

Implicit Types (h : store) (n : option_node) (ns : list option_node).

Lemma snapshot_oid depth h o n : snapshot depth h o = Some n → node_oid n = o.
Proof.
  destruct depth as [|depth]; simpl; [done|].
  destruct (h !! o) as [d|]; simpl; [|done].
  destruct (d_children d) as [cs|]; [|by intros [= <-]].
  destruct (mapM _ cs); simpl; [|done]. by intros [= <-].
Qed.

Lemma snapshot_all_oids depth h (cs : list oid) ks :
  Forall2 (λ c k, snapshot depth h c = Some k) cs ks → map node_oid ks = cs.
Proof.
  induction 1 as [|c k cs ks Hck _ IH]; simpl; [done|].
  f_equal; [by eapply snapshot_oid|done].
Qed.

Lemma Forall2_result {A B} (R : A → B → Prop) (Q : B → Prop) l k :
  (∀ x y, R x y → Q y) → Forall2 R l k → Forall Q k.
Proof. intros HRQ. induction 1; constructor; eauto. Qed.

Lemma max_list_lt (bound : nat) (l : list nat) :
  0 < bound → Forall (λ x, x < bound) l → max_list l < bound.
Proof.
  intros Hpos. induction 1 as [|x l Hx _ IH]; [done|].
  rewrite max_list_cons. lia.
Qed.

(** what is read back is held by the store, and is shallower than [depth] *)
Lemma snapshot_sound depth h :
  ∀ o n, snapshot depth h o = Some n → represents h n ∧ nesting n < depth.
Proof.
  induction depth as [|depth IH]; intros o n; simpl; [done|].
  destruct (h !! o) as [d|] eqn:Hd; simpl; [|done].
  destruct d as [l v s [cs|]]; simpl.
  - destruct (mapM _ cs) as [ks|] eqn:Hks; simpl; [|done].
    intros [= <-]. apply mapM_Some_1 in Hks.
    pose proof (snapshot_all_oids _ _ _ _ Hks) as Hoids.
    pose proof (Forall2_result _ (λ k, represents h k ∧ nesting k < depth)
                  _ _ (IH) Hks) as Hall.
    split.
    + constructor;
        [cbn [node_oid]; rewrite Hd; unfold dict_of; simpl; by rewrite Hoids|].
      simpl. eapply Forall_impl; [exact Hall|]. by intros k [? _].
    + destruct ks as [|k ks']; [simpl; lia|].
      change (nesting (OptionNode o l v s (Some (k :: ks'))))
        with (S (max_list (nesting <$> k :: ks'))).
      apply -> Nat.succ_lt_mono.
      assert (0 < depth).
      { apply Forall_cons in Hall as [[_ ?] _]. lia. }
      apply max_list_lt; [done|]. apply Forall_fmap.
      eapply Forall_impl; [exact Hall|]. by intros k' [_ ?].
  - intros [= <-]. split; [|simpl; lia].
    constructor; [cbn [node_oid]; by rewrite Hd|constructor].
Qed.

(** a snapshot held by the store is read back, given enough depth *)
Lemma snapshot_complete h :
  ∀ depth n, represents h n → nesting n < depth →
             snapshot depth h (node_oid n) = Some n.
Proof.
  induction depth as [|depth IH]; intros n Hrep Hdepth; [lia|].
  apply represents_inv in Hrep as [Hobj Hkids].
  simpl. rewrite Hobj. simpl.
  destruct n as [o l v s [ks|]]; simpl in *; [|done].
  assert (Hks : mapM (snapshot depth h) (map node_oid ks) = Some ks).
  { apply mapM_Some_2.
    assert (Hbound : Forall (λ k, nesting k < depth) ks).
    { destruct ks as [|k ks]; [constructor|].
      apply Forall_forall. intros k' Hk'.
      assert (nesting k' ≤ max_list (nesting <$> k :: ks)); [|lia].
      apply max_list_elem_of_le, list_elem_of_fmap. by exists k'. }
    clear Hdepth Hobj.
    induction ks as [|k ks IHks]; simpl; constructor.
    - apply Forall_cons in Hkids as [? _], Hbound as [? _]. by apply IH.
    - apply Forall_cons in Hkids as [_ ?], Hbound as [_ ?]. by apply IHks. }
  by rewrite Hks.
Qed.

Lemma snapshots_sound depth h (os : list oid) ns :
  snapshots depth h os = Some ns →
  Forall (represents h) ns ∧ node_oid <$> ns = os
  ∧ Forall (λ n, nesting n < depth) ns.
Proof.
  unfold snapshots. intros Hns%mapM_Some_1.
  pose proof (snapshot_all_oids _ _ _ _ Hns) as Hoids.
  pose proof (Forall2_result _ (λ k, represents h k ∧ nesting k < depth)
                _ _ (snapshot_sound depth h) Hns) as Hall.
  repeat split; [|done|].
  - eapply Forall_impl; [exact Hall|]. by intros k [? _].
  - eapply Forall_impl; [exact Hall|]. by intros k [_ ?].
Qed.

Lemma snapshots_complete depth h ns :
  Forall (represents h) ns → Forall (λ n, nesting n < depth) ns →
  snapshots depth h (node_oid <$> ns) = Some ns.
Proof.
  intros Hrep Hdepth. apply mapM_Some_2.
  induction ns as [|n ns IH]; simpl; constructor.
  - apply Forall_cons in Hrep as [Hn _], Hdepth as [Hd _].
    by apply snapshot_complete.
  - apply Forall_cons in Hrep as [_ Hns], Hdepth as [_ Hd]. by apply IH.
Qed.

Lemma max_list_le (bound : nat) (l : list nat) :
  Forall (λ x, x ≤ bound) l → max_list l ≤ bound.
Proof.
  induction 1 as [|x l Hx _ IH]; [simpl; lia|].
  rewrite max_list_cons. lia.
Qed.

(** filtering never deepens a tree *)
Lemma nesting_reassign_children filter_func :
  ∀ n, nesting (reassign_children filter_func n) ≤ nesting n.
Proof.
  apply (option_node_induction
           (λ n, nesting (reassign_children filter_func n) ≤ nesting n)).
  intros o l v s cs IH.
  rewrite (nesting_unfold (reassign_children _ _)), reassign_children_kids.
  rewrite (nesting_unfold (OptionNode o l v s cs)).
  change (kids (OptionNode o l v s cs)) with (default [] cs).
  destruct (default [] cs) as [|k ks] eqn:Hks; [done|].
  destruct (filter_options (k :: ks) filter_func) as [|k' ks'] eqn:Hf; [lia|].
  apply le_n_S, max_list_le, Forall_fmap, Forall_forall.
  intros k'' Hk''. rewrite <- Hf in Hk''.
  apply elem_of_filter_options in Hk'' as (k0 & Hk0 & _ & ->).
  rewrite Forall_forall in IH.
  change (nesting (reassign_children filter_func k0)
          ≤ max_list (nesting <$> k :: ks)).
  etrans; [by apply IH|].
  apply max_list_elem_of_le, list_elem_of_fmap. by exists k0.
Qed.

Lemma nesting_shown_after filter_func n :
  nesting (shown_after filter_func n) ≤ nesting n.
Proof.
  unfold shown_after. destruct (filter_func n); [|done].
  apply nesting_reassign_children.
Qed.

End SnapshotFacts.

(** ** Options for a subject *)

Section BySubjectFacts.

Variable ROOT : string.
Variable get_implicit : Enforcer -> string -> list rule.

Abbreviation by_subject :=
  (get_admin_action_options_by_subject ROOT get_implicit).

Lemma lru_find_touch key (v : list oid) (c : lru_cache) :
  lru_find key (lru_touch key v c) = Some v.
Proof. unfold lru_touch. simpl. by rewrite decide_True. Qed.

(** a memoised group: the stored list is handed out, no dict is touched *)
Lemma get_admin_action_options_hit group σ options :
  lru_find (group_unique_id group) (cache σ) = Some options →
  get_admin_action_options group σ
  = (set_cache σ (lru_touch (group_unique_id group) options (cache σ)), options).
Proof. intros Hhit. destruct group as [uid ps members]. simpl in *. by rewrite Hhit. Qed.

Lemma by_subject_root limit enforcer group σ :
  by_subject limit enforcer ("u:" +:+ ROOT) group σ
  = Some (get_admin_action_options group σ).
Proof.
  unfold get_admin_action_options_by_subject.
  destruct (get_admin_action_options group σ) as [σ1 options].
  by rewrite decide_False by (intros H; by apply H).
Qed.

(** any other subject: the store-level filter runs on what the memoised
    builder hands out *)
Lemma by_subject_other limit enforcer subject group σ tree :
  subject ≠ "u:" +:+ ROOT →
  let built := get_admin_action_options group σ in
  let filter_func :=
    by_value (casbin_get_subject_permissions get_implicit enforcer subject true) in
  built.2 = node_oid <$> tree →
  well_formed (heap built.1) tree →
  max_list (nesting <$> tree) < limit →
  ∃ h2,
    by_subject limit enforcer subject group σ
    = Some (set_heap built.1 h2, node_oid <$> filter_options tree filter_func)
    ∧ Forall (represents h2) (shown_after filter_func <$> tree)
    ∧ (∀ o, o ∉ oids_list tree → h2 !! o = heap built.1 !! o).
Proof.
  intros Hsubject built filter_func Hoptions Hwf Hdepth.
  destruct (filter_options_h_refines
              (casbin_get_subject_permissions get_implicit enforcer subject true)
              limit tree (heap built.1) Hwf Hdepth)
    as (h2 & Hrun & Hshown & Hframe).
  exists h2. split; [|done].
  unfold get_admin_action_options_by_subject.
  subst built. destruct (get_admin_action_options group σ) as [σ1 options].
  simpl in *. subst options.
  rewrite decide_True by done. by rewrite Hrun.
Qed.

End BySubjectFacts.

Ltac by_computation := vm_compute; reflexivity.
Ltac nodup_by_computation :=
  match goal with
  | |- ?P => apply (bool_decide_unpack P); vm_compute; exact I
  end.

(** the filtered tree of the example: the users page with its create action *)
Example bob_sees_users_create :
  filter_options SiteExample.full_tree
    (by_value (casbin_get_subject_permissions SiteExample.implicit_permissions
                 SiteExample.no_rules "u:bob" true))
  = [OptionNode 0 "Users" "site.user#admin:page###" (Some 1%Z)
       (Some [OptionNode 2 "Create" "site.user#admin:create###" None None])].
Proof. by_computation. Qed.

(** ** Later callers *)

Section Stripping.

Variable filter_func : option_node -> bool.

(** filtering keeps the remaining objects in place and in order *)
Lemma oids_list_filter_sublist (ns : list option_node) :
  Forall (λ n, oids (reassign_children filter_func n) `sublist_of` oids n) ns →
  oids_list (filter_options ns filter_func) `sublist_of` oids_list ns.
Proof.
  induction 1 as [|n ns Hn _ IH]; [done|].
  rewrite filter_options_cons, oids_list_cons.
  destruct (filter_func n).
  - rewrite oids_list_cons. by apply sublist_app.
  - by apply sublist_inserts_l.
Qed.

Lemma oids_reassign_sublist :
  ∀ n, oids (reassign_children filter_func n) `sublist_of` oids n.
Proof.
  apply (option_node_induction
           (λ n, oids (reassign_children filter_func n) `sublist_of` oids n)).
  intros o l v s cs IH.
  rewrite !oids_unfold, reassign_children_kids.
  destruct (reassign_children_fields filter_func (OptionNode o l v s cs)) as [-> _].
  apply sublist_skip. by apply oids_list_filter_sublist.
Qed.

Lemma oids_shown_sublist (ns : list option_node) :
  oids_list (shown_after filter_func <$> ns) `sublist_of` oids_list ns.
Proof.
  induction ns as [|n ns IH]; [done|].
  rewrite fmap_cons, !oids_list_cons. apply sublist_app; [|done].
  unfold shown_after. destruct (filter_func n); [|done].
  apply oids_reassign_sublist.
Qed.

Lemma shown_after_oids (ns : list option_node) :
  node_oid <$> (shown_after filter_func <$> ns) = node_oid <$> ns.
Proof.
  rewrite <- list_fmap_compose. apply list_fmap_ext.
  intros i n _. apply shown_after_oid.
Qed.

Lemma nesting_shown_list (bound : nat) (ns : list option_node) :
  Forall (λ n, nesting n < bound) ns →
  Forall (λ n, nesting n < bound) (shown_after filter_func <$> ns).
Proof.
  intros Hns. apply Forall_fmap. eapply Forall_impl; [exact Hns|].
  intros n Hn. eapply Nat.le_lt_trans; [apply nesting_shown_after|done].
Qed.

Lemma max_nesting_shown (ns : list option_node) :
  max_list (nesting <$> (shown_after filter_func <$> ns))
  ≤ max_list (nesting <$> ns).
Proof.
  induction ns as [|n ns IH]; [done|].
  rewrite !fmap_cons, !max_list_cons.
  pose proof (nesting_shown_after filter_func n). lia.
Qed.

End Stripping.

Section LaterCallers.

Variable ROOT : string.
Variable get_implicit : Enforcer -> string -> list rule.

(** one more caller: the list stays memoised; it shows the same tree after
    a root call and the tree as filtering leaves it after any other *)
Lemma memoised_after_call group options depth tree σ c :
  memoised_as group options depth tree σ →
  max_list (nesting <$> tree) < caller_limit c →
  ∃ σ' result,
    get_admin_action_options_by_subject ROOT get_implicit (caller_limit c)
      (caller_enforcer c) (caller_subject c) group σ = Some (σ', result)
    ∧ memoised_as group options depth
        (shown_after_all (filters_of ROOT get_implicit [c]) tree) σ'.
Proof.
  intros (Hmemo & Hoids & Hwf & Hnest) Hlimit.
  pose proof (get_admin_action_options_hit group σ options Hmemo) as Hhit.
  unfold filters_of, shown_after_all. cbn [foldr].
  destruct (decide (caller_subject c ≠ "u:" +:+ ROOT)) as [Hother|Hroot].
  - destruct (by_subject_other ROOT get_implicit (caller_limit c)
                (caller_enforcer c) (caller_subject c) group σ tree Hother)
      as (h2 & Hrun & Hshown & _).
    + by rewrite Hhit.
    + by rewrite Hhit.
    + done.
    + rewrite Hhit in Hrun. simpl in Hrun.
      eexists _, _. split; [exact Hrun|].
      unfold memoised_as, set_heap, set_cache. cbn [heap cache foldl].
      split; [apply lru_find_touch|]. split; [by rewrite shown_after_oids|].
      split; [|by apply nesting_shown_list].
      split; [done|].
      apply (sublist_NoDup _ (oids_list tree)); [|apply oids_shown_sublist].
      by destruct Hwf.
  - apply dec_stable in Hroot. rewrite Hroot, by_subject_root, Hhit.
    eexists _, _. split; [done|].
    unfold memoised_as, set_cache. cbn [heap cache foldl].
    split; [apply lru_find_touch|]. done.
Qed.

Lemma filters_of_cons c (callers : list Caller) :
  filters_of ROOT get_implicit (c :: callers)
  = filters_of ROOT get_implicit [c] ++ filters_of ROOT get_implicit callers.
Proof.
  unfold filters_of. simpl.
  by destruct (decide (caller_subject c ≠ "u:" +:+ ROOT)).
Qed.

(** any number of callers, one after the other *)
Lemma memoised_after_calls group options depth (callers : list Caller) :
  ∀ tree σ,
    memoised_as group options depth tree σ →
    Forall (λ c, max_list (nesting <$> tree) < caller_limit c) callers →
    ∃ σ',
      serve ROOT get_implicit group callers σ = Some σ'
      ∧ memoised_as group options depth
          (shown_after_all (filters_of ROOT get_implicit callers) tree) σ'.
Proof.
  induction callers as [|c callers IH]; intros tree σ Hmemo Hlimits.
  { exists σ. by split. }
  apply Forall_cons in Hlimits as [Hlimit Hlimits].
  destruct (memoised_after_call group options depth tree σ c Hmemo Hlimit)
    as (σ1 & result & Hrun & Hmemo1).
  destruct (IH _ σ1 Hmemo1) as (σ' & Hserve & Hmemo').
  { eapply Forall_impl; [exact Hlimits|]. intros c' Hc'.
    eapply Nat.le_lt_trans; [|exact Hc'].
    unfold filters_of, shown_after_all. simpl.
    destruct (decide _); [apply max_nesting_shown|done]. }
  exists σ'. split.
  - simpl. rewrite Hrun. simpl. exact Hserve.
  - rewrite filters_of_cons. unfold shown_after_all in *.
    by rewrite foldl_app.
Qed.

(** what is memoised is what anyone is shown *)
Lemma memoised_snapshot group options depth tree σ :
  memoised_as group options depth tree σ →
  snapshots depth (heap σ) options = Some tree.
Proof.
  intros (_ & <- & [Hrep _] & Hnest). by apply snapshots_complete.
Qed.

End LaterCallers.

(** C10: a call for a non-root subject filters in place.  The list the
    memoised builder keeps for the group stays memoised, but the dicts it
    lists have had their children entries reassigned to the filtered
    sublists, at every level below a kept option: every child that is still
    there passes the filter.  Whoever calls later for the group, after any
    number of further callers, is handed that same list, and root, who
    filters nothing, sees the tree as all the filtering so far has left it,
    not the tree that was built. *)
Theorem filtering_strips_memoised_tree
    (ROOT : string) (get_implicit : Enforcer -> string -> list rule)
    (limit : nat) (enforcer : Enforcer) (subject : string)
    (group : AdminGroup) (σ : State) (depth : nat) (tree : list option_node) :
  let built := get_admin_action_options group σ in
  let permissions :=
    casbin_get_subject_permissions get_implicit enforcer subject true in
  subject ≠ "u:" +:+ ROOT →
  lru_find (group_unique_id group) (cache built.1) = Some built.2 →
  snapshots depth (heap built.1) built.2 = Some tree →
  NoDup (oids_list tree) →
  max_list (nesting <$> tree) < limit →
  ∃ σ2 options,
    get_admin_action_options_by_subject ROOT get_implicit limit enforcer
      subject group σ = Some (σ2, options)
    ∧ lru_find (group_unique_id group) (cache σ2) = Some built.2
    ∧ snapshots depth (heap σ2) built.2
      = Some (shown_after (by_value permissions) <$> tree)
    ∧ (∀ n k, n ∈ tree → by_value permissions n = true →
              k ∈ kids (shown_after (by_value permissions) n) →
              value k ∈ permissions)
    ∧ (∀ later : list Caller,
         Forall (λ c, max_list (nesting <$> tree) < caller_limit c) later →
         ∃ σ',
           serve ROOT get_implicit group later σ2 = Some σ'
           ∧ ∀ limit' enforcer', ∃ σ3,
               get_admin_action_options_by_subject ROOT get_implicit limit'
                 enforcer' ("u:" +:+ ROOT) group σ' = Some (σ3, built.2)
               ∧ snapshots depth (heap σ3) built.2
                 = Some (shown_after_all
                           (permissions :: filters_of ROOT get_implicit later)
                           tree)).
Proof.
  intros built permissions Hsubject Hmemo Hsnap Hnodup Hdepth.
  apply snapshots_sound in Hsnap as (Hrep & Hoids & Hnest).
  destruct (by_subject_other ROOT get_implicit limit enforcer subject group σ
              tree Hsubject (eq_sym Hoids) (conj Hrep Hnodup) Hdepth)
    as (h2 & Hrun & Hshown & _).
  fold built permissions in Hrun, Hshown.
  assert (Hafter : memoised_as group built.2 depth
                     (shown_after (by_value permissions) <$> tree)
                     (set_heap built.1 h2)).
  { split; [done|]. split; [by rewrite shown_after_oids|].
    split; [|by apply nesting_shown_list].
    split; [done|].
    by apply (sublist_NoDup _ (oids_list tree)); [|apply oids_shown_sublist]. }
  exists (set_heap built.1 h2), (node_oid <$> filter_options tree (by_value permissions)).
  split; [exact Hrun|]. split; [exact Hmemo|].
  split; [by eapply memoised_snapshot|]. split.
  - intros n k Hn Hf Hk. unfold shown_after in Hk. rewrite Hf in Hk.
    rewrite reassign_children_kids in Hk.
    apply elem_of_filter_options in Hk as (k0 & _ & Hk0 & ->).
    destruct (reassign_children_fields (by_value permissions) k0) as (_ & _ & -> & _).
    unfold by_value, value_in in Hk0. by apply bool_decide_eq_true in Hk0.
  - intros later Hlimits.
    destruct (memoised_after_calls ROOT get_implicit group built.2 depth later
                _ _ Hafter) as (σ' & Hserve & Hmemo').
    { eapply Forall_impl; [exact Hlimits|]. intros c Hc.
      eapply Nat.le_lt_trans; [apply max_nesting_shown|exact Hc]. }
    exists σ'. split; [exact Hserve|]. intros limit' enforcer'.
    rewrite by_subject_root.
    destruct Hmemo' as (Hfind & Hrest).
    rewrite (get_admin_action_options_hit group σ' built.2 Hfind).
    eexists. split; [reflexivity|]. cbn [heap set_cache].
    eapply memoised_snapshot. split; [exact Hfind|exact Hrest].
Qed.

Lemma filtering_strips_memoised_tree_witness :
  ∃ σ2 options σ' σ3,
    get_admin_action_options_by_subject "root" SiteExample.implicit_permissions 10
      SiteExample.no_rules "u:bob" SiteExample.site SiteExample.start
    = Some (σ2, options)
    ∧ serve "root" SiteExample.implicit_permissions SiteExample.site
        [mkCaller 10 SiteExample.no_rules "u:root"] σ2 = Some σ'
    ∧ get_admin_action_options_by_subject "root"
        SiteExample.implicit_permissions 10 SiteExample.no_rules
        "u:root" SiteExample.site σ' = Some (σ3, SiteExample.built.2)
    ∧ snapshots 3 (heap σ3) SiteExample.built.2
      = Some (shown_after
                (by_value (casbin_get_subject_permissions
                             SiteExample.implicit_permissions
                             SiteExample.no_rules "u:bob" true))
                <$> SiteExample.full_tree).
Proof.
  destruct (filtering_strips_memoised_tree "root" SiteExample.implicit_permissions
              10 SiteExample.no_rules "u:bob" SiteExample.site SiteExample.start
              3 SiteExample.full_tree)
    as (σ2 & options & Hrun & _ & _ & _ & Hlater).
  - discriminate.
  - by_computation.
  - by_computation.
  - nodup_by_computation.
  - vm_compute. lia.
  - destruct (Hlater [mkCaller 10 SiteExample.no_rules "u:root"])
      as (σ' & Hserve & Hroot).
    { repeat constructor. }
    destruct (Hroot 10 SiteExample.no_rules) as (σ3 & Hcall & Hsees).
    exists σ2, options, σ', σ3. repeat split; assumption.
Defined.

(** The example run.  Before anyone else has asked, root is handed the
    users page with its three actions; once bob has asked, root is handed
    the same dict with the create action only. *)
Example root_sees_full_tree_first :
  match get_admin_action_options_by_subject "root"
          SiteExample.implicit_permissions 10 SiteExample.no_rules
          "u:root" SiteExample.site SiteExample.start with
  | Some (σ1, options) =>
      (snapshots 3 (heap σ1) options ≫= (.!! 1)) ≫= children
  | None => None
  end
  = Some [OptionNode 1 "查看列表" "site.user#admin:list###" None None;
          OptionNode 2 "Create" "site.user#admin:create###" None None;
          OptionNode 3 "Delete" "site.user#admin:delete###" None None].
Proof. by_computation. Qed.

Example root_sees_stripped_tree_after :
  match get_admin_action_options_by_subject "root"
          SiteExample.implicit_permissions 10 SiteExample.no_rules
          "u:bob" SiteExample.site SiteExample.start with
  | Some (σ2, _) =>
      match get_admin_action_options_by_subject "root"
              SiteExample.implicit_permissions 10 SiteExample.no_rules
              "u:root" SiteExample.site σ2 with
      | Some (σ3, options) =>
          (snapshots 3 (heap σ3) options ≫= (.!! 1)) ≫= children
      | None => None
      end
  | None => None
  end
  = Some [OptionNode 2 "Create" "site.user#admin:create###" None None].
Proof. by_computation. Qed.

(** ** What the builder hands out

    The theorems on [get_admin_action_options_by_subject] assume that the
    memoised list shows a forest in which every dict occurs once.  This
    section shows that a build does produce such a forest, for every group
    whose unique ids are pairwise distinct and not yet memoised. *)

Section Memo.

Lemma lru_find_removelast k (c : lru_cache) :
  lru_find k c = None → lru_find k (removelast c) = None.
Proof.
  induction c as [|[k' v] c IH]; [done|]. simpl.
  destruct (decide (k' = k)); [done|]. intros Hc.
  destruct c as [|e c]; [done|]. simpl.
  rewrite decide_False by done. by apply IH.
Qed.

Lemma lru_find_store key (v : list oid) (c : lru_cache) :
  lru_find key c = None → lru_find key (lru_store key v c) = Some v.
Proof.
  intros Hmiss. unfold lru_store. rewrite Hmiss.
  destruct (decide _); simpl; by rewrite decide_True.
Qed.

Lemma lru_find_store_other key k (v : list oid) (c : lru_cache) :
  k ≠ key → lru_find k c = None → lru_find k (lru_store key v c) = None.
Proof.
  intros Hk Hmiss. unfold lru_store.
  destruct (lru_find key c); [done|].
  destruct (decide _); simpl; rewrite decide_False by done;
    [by apply lru_find_removelast|done].
Qed.

Lemma memo_within_refl ids σ : memo_within ids σ σ.
Proof. by intros k _ ?. Qed.

Lemma memo_within_trans ids1 ids2 ids σ σ1 σ2 :
  memo_within ids1 σ σ1 → memo_within ids2 σ1 σ2 →
  (∀ k, k ∈ ids1 → k ∈ ids) → (∀ k, k ∈ ids2 → k ∈ ids) →
  memo_within ids σ σ2.
Proof.
  intros H1 H2 Hin1 Hin2 k Hk Hmiss.
  apply H2; [by intros ?%Hin2|]. apply H1; [by intros ?%Hin1|done].
Qed.

Lemma memo_within_same_cache ids σ σ1 :
  cache σ1 = cache σ → memo_within ids σ σ1.
Proof. intros Hc k _. by rewrite Hc. Qed.

End Memo.

Section Builds.

Implicit Types (σ : State) (tree : list option_node) (d : option_dict).

Lemma builds_nil σ : allocator_ok σ → builds σ σ [] [].
Proof.
  intros Hok. split; [done|]. split; [constructor|].
  split; [constructor|]. split; [intros o Ho; by apply elem_of_nil in Ho|].
  by repeat split.
Qed.

(** one build after the other *)
Lemma builds_app σ σ1 σ2 os1 os2 tree1 tree2 :
  builds σ σ1 os1 tree1 → builds σ1 σ2 os2 tree2 →
  builds σ σ2 (os1 ++ os2) (tree1 ++ tree2).
Proof.
  intros (Ho1 & Hrep1 & Hnd1 & Hin1 & Hle1 & Hok1 & Hfr1)
         (Ho2 & Hrep2 & Hnd2 & Hin2 & Hle2 & Hok2 & Hfr2).
  assert (Hsplit : oids_list (tree1 ++ tree2) = oids_list tree1 ++ oids_list tree2).
  { unfold oids_list. apply flat_map_app. }
  split; [by rewrite fmap_app, Ho1, Ho2|]. split.
  { apply Forall_app. split; [|done].
    apply (represents_frame_list (heap σ1)); [done|].
    intros o Ho. apply Hfr2. apply Hin1 in Ho. lia. }
  split.
  { rewrite Hsplit. apply NoDup_app. split; [done|]. split; [|done].
    intros o Ho1' Ho2'. apply Hin1 in Ho1'. apply Hin2 in Ho2'. lia. }
  split.
  { intros o. rewrite Hsplit, elem_of_app.
    intros [Ho|Ho]; [apply Hin1 in Ho|apply Hin2 in Ho]; lia. }
  split; [lia|]. split; [done|].
  intros o Ho. rewrite Hfr2 by lia. by apply Hfr1.
Qed.

(** a new dict without children *)
Lemma builds_leaf σ d :
  allocator_ok σ → d_children d = None →
  builds σ (new_dict d σ).1 [(new_dict d σ).2] [leaf_of (next_oid σ) d].
Proof.
  intros Hok Hd. unfold builds, allocator_ok, new_dict.
  cbn [fst snd heap next_oid cache].
  split; [done|]. split.
  { constructor; [|done]. constructor; [|constructor].
    cbn [leaf_of node_oid]. rewrite lookup_insert_eq.
    unfold dict_of. cbn. destruct d. cbn in *. by subst. }
  split; [cbn; apply NoDup_singleton|]. split.
  { intros o Ho. cbn in Ho. apply list_elem_of_singleton in Ho. subst. lia. }
  split; [lia|]. split.
  { intros o [x Ho]. destruct (decide (o = next_oid σ)) as [->|Hne]; [lia|].
    rewrite lookup_insert_ne in Ho by done.
    assert (o < next_oid σ) by (apply Hok; eauto). lia. }
  intros o Ho. by rewrite lookup_insert_ne by lia.
Qed.

(** a new dict, then its children, then the assignment of the children *)
Lemma builds_parent σ d σb cs kids_tree :
  allocator_ok σ → d_children d = None →
  builds (new_dict d σ).1 σb cs kids_tree →
  builds σ (store_children (next_oid σ) cs σb) [next_oid σ]
    [OptionNode (next_oid σ) (d_label d) (d_value d) (d_sort d) (Some kids_tree)].
Proof.
  intros Hok Hd (Hcs & Hrep & Hnd & Hin & Hle & Hokb & Hfr).
  unfold new_dict in *. cbn [fst snd heap next_oid cache] in *.
  assert (Hitem : heap σb !! next_oid σ = Some d).
  { rewrite Hfr by lia. apply lookup_insert_eq. }
  unfold store_children, assign_children. rewrite Hitem.
  cbn [mbind option_bind]. unfold builds, allocator_ok, set_heap.
  cbn [heap next_oid cache].
  assert (Hfresh : next_oid σ ∉ oids_list kids_tree).
  { intros Ho. apply Hin in Ho. lia. }
  split; [done|]. split.
  { constructor; [|done]. constructor.
    - cbn [node_oid]. rewrite lookup_insert_eq. unfold dict_of. cbn.
      by subst cs.
    - cbn [kids children default from_option id].
      apply (represents_frame_list (heap σb)); [done|].
      intros o Ho. rewrite lookup_insert_ne; [done|]. by intros <-. }
  split.
  { rewrite oids_list_cons, oids_unfold. cbn [node_oid kids children default
      from_option id oids_list flat_map]. rewrite app_nil_r. by apply NoDup_cons. }
  split.
  { intros o Ho. rewrite oids_list_cons, oids_unfold in Ho.
    cbn [node_oid kids children default from_option id oids_list flat_map] in Ho.
    rewrite app_nil_r in Ho.
    apply elem_of_cons in Ho as [->|Ho]; [lia|]. apply Hin in Ho. lia. }
  split; [lia|]. split.
  { intros o [x Ho].
    destruct (decide (o = next_oid σ)) as [->|Hne]; [lia|].
    rewrite lookup_insert_ne in Ho by done. apply Hokb. eauto. }
  intros o Ho. rewrite lookup_insert_ne by lia.
  rewrite Hfr by lia. by rewrite lookup_insert_ne by lia.
Qed.

End Builds.

Section BuilderFacts.

Implicit Types (σ : State) (tree : list option_node) (d : option_dict).

Lemma new_dicts_cons d ds σ :
  new_dicts (d :: ds) σ
  = ((new_dicts ds (new_dict d σ).1).1,
     next_oid σ :: (new_dicts ds (new_dict d σ).1).2).
Proof.
  cbn [new_dicts]. unfold new_dict. cbn [fst snd].
  by destruct (new_dicts ds _).
Qed.

(** the dicts of the actions of an admin: new leaves, the memo untouched *)
Lemma builds_new_dicts ds :
  ∀ σ, allocator_ok σ → Forall (λ d, d_children d = None) ds →
       ∃ tree, builds σ (new_dicts ds σ).1 (new_dicts ds σ).2 tree
               ∧ cache (new_dicts ds σ).1 = cache σ
               ∧ erase <$> tree = leaf_shape <$> ds.
Proof.
  induction ds as [|d ds IH]; intros σ Hok Hleaves.
  { exists []. split; [by apply builds_nil|done]. }
  apply Forall_cons in Hleaves as [Hd Hleaves].
  pose proof (builds_leaf σ d Hok Hd) as Hleaf.
  destruct (IH (new_dict d σ).1) as (tree & Hrest & Hcache & Hshape); [|done|].
  { by destruct Hleaf as (_ & _ & _ & _ & _ & ? & _). }
  exists (leaf_of (next_oid σ) d :: tree).
  rewrite new_dicts_cons. cbn [fst snd]. split; [|split].
  - exact (builds_app _ _ _ _ _ _ _ Hleaf Hrest).
  - by rewrite Hcache.
  - by rewrite !fmap_cons, Hshape.
Qed.

Lemma action_options_leaves admin ds :
  action_options admin = Some ds → Forall (λ d, d_children d = None) ds.
Proof.
  assert (Hreg : ∀ uid actions,
            Forall (λ d, d_children d = None) (registered_options uid actions)).
  { intros uid actions. unfold registered_options. apply Forall_fmap.
    by apply Forall_forall. }
  destruct admin as [uid ps|uid ps actions|uid ps actions|uid ps actions|g];
    simpl; intros [= <-]; try done.
  - constructor; [done|apply Hreg].
  - apply Forall_app. split; [|apply Hreg].
    destruct (decide _); by repeat constructor.
Qed.

(** sorting the list sorts the forest it shows *)
Lemma insert_desc_shows key n (sorted : list option_node) :
  ∃ tree, tree ≡ₚ n :: sorted
          ∧ node_oid <$> tree = insert_desc key (node_oid n) (node_oid <$> sorted).
Proof.
  induction sorted as [|m sorted IH]; [by exists [n]|].
  rewrite fmap_cons. cbn [insert_desc].
  destruct (decide _).
  - by exists (n :: m :: sorted).
  - destruct IH as (tree & Hperm & Hoids).
    exists (m :: tree). split; [|by rewrite fmap_cons, Hoids].
    rewrite Hperm. apply Permutation_swap.
Qed.

Lemma sort_desc_shows key tree :
  ∃ tree', tree' ≡ₚ tree
           ∧ node_oid <$> tree' = sort_desc key (node_oid <$> tree).
Proof.
  induction tree as [|n tree IH]; [by exists []|].
  destruct IH as (sorted & Hperm & Hoids).
  destruct (insert_desc_shows key n sorted) as (tree' & Hperm' & Hoids').
  exists tree'. split; [by rewrite Hperm', Hperm|].
  rewrite fmap_cons. unfold sort_desc in *. cbn [foldr]. by rewrite <- Hoids.
Qed.

(** the generic sort, and the sort of the code as an instance of it *)
Lemma insert_by_perm {A : Type} (key : A -> Z) p (l : list A) :
  insert_by key p l ≡ₚ p :: l.
Proof.
  induction l as [|q l IH]; [done|]. cbn [insert_by].
  destruct (decide _); [done|]. rewrite IH. apply Permutation_swap.
Qed.

Lemma sort_by_perm {A : Type} (key : A -> Z) (l : list A) : sort_by key l ≡ₚ l.
Proof.
  induction l as [|p l IH]; [done|].
  unfold sort_by in *. cbn [foldr]. by rewrite insert_by_perm, IH.
Qed.

Lemma insert_by_fmap {A B : Type} (f : A -> B) (keyA : A -> Z) (keyB : B -> Z)
    p (l : list A) :
  keyB (f p) = keyA p → Forall (λ x, keyB (f x) = keyA x) l →
  insert_by keyB (f p) (f <$> l) = f <$> insert_by keyA p l.
Proof.
  intros Hp. induction 1 as [|q l Hq _ IH]; [done|].
  rewrite fmap_cons. cbn [insert_by]. rewrite Hp, Hq.
  destruct (decide _); [done|]. by rewrite fmap_cons, IH.
Qed.

Lemma sort_by_fmap {A B : Type} (f : A -> B) (keyA : A -> Z) (keyB : B -> Z)
    (l : list A) :
  Forall (λ x, keyB (f x) = keyA x) l →
  sort_by keyB (f <$> l) = f <$> sort_by keyA l.
Proof.
  induction 1 as [|p l Hp Hl IH]; [done|].
  rewrite fmap_cons. unfold sort_by in *. cbn [foldr]. rewrite IH.
  apply insert_by_fmap; [done|].
  fold (sort_by keyA l). by rewrite sort_by_perm.
Qed.

Lemma sort_desc_by key (l : list oid) : sort_desc key l = sort_by key l.
Proof.
  assert (Hinsert : ∀ p sorted, insert_desc key p sorted = insert_by key p sorted).
  { intros p sorted. induction sorted as [|q sorted IH]; [done|].
    cbn [insert_desc insert_by]. by rewrite IH. }
  induction l as [|p l IH]; [done|].
  unfold sort_desc, sort_by in *. cbn [foldr]. by rewrite IH, Hinsert.
Qed.

(** the weight the sort reads from the store is the weight the option shows *)
Lemma represents_weight (h : store) n :
  represents h n → sort_key h (node_oid n) = shape_weight (erase n).
Proof.
  intros [Hobj _]%represents_inv. unfold sort_key. rewrite Hobj.
  by destruct n as [o l v s cs].
Qed.

(** sorting the list sorts what it shows *)
Lemma sort_desc_shows_shapes (h : store) tree :
  Forall (represents h) tree →
  ∃ tree', tree' ≡ₚ tree
           ∧ node_oid <$> tree' = sort_desc (sort_key h) (node_oid <$> tree)
           ∧ erase <$> tree' = sort_by shape_weight (erase <$> tree).
Proof.
  intros Hrep. exists (sort_by (λ n, shape_weight (erase n)) tree).
  split; [apply sort_by_perm|]. split.
  - rewrite sort_desc_by. symmetry. apply sort_by_fmap.
    eapply Forall_impl; [exact Hrep|]. intros n. apply represents_weight.
  - symmetry. apply sort_by_fmap. by apply Forall_forall.
Qed.

Lemma oids_list_perm tree tree' :
  tree' ≡ₚ tree → oids_list tree' ≡ₚ oids_list tree.
Proof. unfold oids_list. apply Permutation_flat_map. Qed.

(** a build hands out the same forest in whatever order it lists it *)
Lemma builds_perm σ σ1 options tree tree' :
  builds σ σ1 options tree → tree' ≡ₚ tree →
  builds σ σ1 (node_oid <$> tree') tree'.
Proof.
  intros (_ & Hrep & Hnd & Hin & Hrest) Hperm.
  pose proof (oids_list_perm _ _ Hperm) as Hoids.
  split; [done|]. split; [by rewrite Hperm|].
  split; [by rewrite Hoids|]. split; [|done].
  intros o Ho. apply Hin. by rewrite <- Hoids.
Qed.

(** a build with the memo changed at the end *)
Lemma builds_set_cache σ σ1 options tree c :
  builds σ σ1 options tree → builds σ (set_cache σ1 c) options tree.
Proof. done. Qed.

End BuilderFacts.

Section AdminGroupInduction.

Variable P : AdminGroup -> Prop.
Hypothesis Hgroup :
  ∀ uid ps members,
    Forall (λ admin, match admin with GroupAdmin g => P g | _ => True end) members →
    P (Group uid ps members).

(** induction over a group and, with it, the groups among its members *)
Lemma AdminGroup_induction : ∀ g, P g.
Proof.
  fix IH 1. intros [uid ps members]. apply Hgroup.
  induction members as [|admin members IHm]; constructor; [|exact IHm].
  destruct admin; try exact I. apply IH.
Qed.

End AdminGroupInduction.

Section BuildSpec.

Implicit Types (σ : State) (tree : list option_node) (g : AdminGroup).

Abbreviation build := get_admin_action_options.

(** what a build of [g] does when none of its ids is memoised *)
Abbreviation build_spec g :=
  (∀ σ, allocator_ok σ → NoDup (group_ids g) →
        (∀ k, k ∈ group_ids g → lru_find k (cache σ) = None) →
        ∃ tree, builds σ (build g σ).1 (build g σ).2 tree
                ∧ memo_within (group_ids g) σ (build g σ).1
                ∧ lru_find (group_unique_id g) (cache (build g σ).1)
                  = Some (build g σ).2
                ∧ erase <$> tree = group_shapes g).

Abbreviation ids_of admin :=
  (match admin with GroupAdmin g => group_ids g | _ => [] end).

Lemma store_children_cache item cs σ :
  cache (store_children item cs σ) = cache σ.
Proof. unfold store_children. by destruct (assign_children _ _ _). Qed.

(** the item of one member and everything below it *)
Lemma fill_children_builds admin schema σ :
  match admin with GroupAdmin g => build_spec g | _ => True end →
  allocator_ok σ → NoDup (ids_of admin) →
  (∀ k, k ∈ ids_of admin → lru_find k (cache σ) = None) →
  let σ1 := fill_children build admin (next_oid σ)
              (new_dict (item_dict admin schema) σ).1 in
  ∃ node, builds σ σ1 [next_oid σ] [node] ∧ memo_within (ids_of admin) σ σ1
          ∧ erase node
            = Shape (ps_label schema)
                (casbin_permission_encode [unique_id admin; "admin:page"])
                (ps_sort schema) (children_shapes group_shapes admin).
Proof.
  intros IH Hok Hnodup Hmiss σ1. subst σ1.
  set (d := item_dict admin schema).
  assert (Hd : d_children d = None) by done.
  pose proof (builds_leaf σ d Hok Hd) as Hleaf.
  assert (Hoka : allocator_ok (new_dict d σ).1).
  { by destruct Hleaf as (_ & _ & _ & _ & _ & ? & _). }
  assert (Hplain : ∀ ds, action_options admin = Some ds →
    ∃ node,
      builds σ (let '(σb, cs) := new_dicts ds (new_dict d σ).1 in
                store_children (next_oid σ) cs σb) [next_oid σ] [node]
      ∧ cache (let '(σb, cs) := new_dicts ds (new_dict d σ).1 in
               store_children (next_oid σ) cs σb) = cache σ
      ∧ erase node
        = Shape (d_label d) (d_value d) (d_sort d) (Some (leaf_shape <$> ds))).
  { intros ds Hds.
    destruct (builds_new_dicts ds (new_dict d σ).1 Hoka
                (action_options_leaves _ _ Hds))
      as (kids_tree & Hkids & Hcache & Hshape).
    destruct (new_dicts ds (new_dict d σ).1) as [σb cs]. cbn [fst snd] in *.
    exists (OptionNode (next_oid σ) (d_label d) (d_value d) (d_sort d)
              (Some kids_tree)).
    split; [by eapply builds_parent|].
    split; [by rewrite store_children_cache, Hcache|].
    cbn [erase]. by rewrite Hshape. }
  assert (Hnone : action_options admin = None →
    ∃ node, builds σ (new_dict d σ).1 [next_oid σ] [node]
            ∧ cache (new_dict d σ).1 = cache σ
            ∧ erase node = Shape (d_label d) (d_value d) (d_sort d) None).
  { intros _. by exists (leaf_of (next_oid σ) d). }
  destruct admin as [uid ps|uid ps actions|uid ps actions|uid ps actions|g];
    cbn [fill_children].
  - destruct (Hnone eq_refl) as (node & ? & ? & ?). exists node.
    split; [done|]. split; [by apply memo_within_same_cache|done].
  - destruct (Hplain _ eq_refl) as (node & ? & ? & ?). exists node.
    split; [done|]. split; [by apply memo_within_same_cache|done].
  - destruct (Hplain _ eq_refl) as (node & ? & ? & ?). exists node.
    split; [done|]. split; [by apply memo_within_same_cache|done].
  - destruct (Hplain _ eq_refl) as (node & ? & ? & ?). exists node.
    split; [done|]. split; [by apply memo_within_same_cache|done].
  - destruct (IH (new_dict d σ).1 Hoka Hnodup Hmiss)
      as (kids_tree & Hkids & Hmemo & _ & Hshape).
    destruct (build g (new_dict d σ).1) as [σb cs]. cbn [fst snd] in *.
    exists (OptionNode (next_oid σ) (d_label d) (d_value d) (d_sort d)
              (Some kids_tree)).
    split; [by eapply builds_parent|]. split.
    + intros k Hk Hnone'. rewrite store_children_cache. by apply Hmemo.
    + cbn [erase children_shapes]. by rewrite Hshape.
Qed.

Lemma memo_within_weaken ids ids' σ σ1 :
  memo_within ids σ σ1 → (∀ k, k ∈ ids → k ∈ ids') → memo_within ids' σ σ1.
Proof. intros H Hsub k Hk. apply H. by intros ?%Hsub. Qed.

Lemma each_admin_item rec admin admins σ options schema :
  page_schema admin = Some schema →
  each_admin rec (admin :: admins) σ options
  = each_admin rec admins
      (fill_children rec admin (next_oid σ)
         (new_dict (item_dict admin schema) σ).1)
      (options ++ [next_oid σ]).
Proof. intros Hschema. cbn [each_admin]. by rewrite Hschema. Qed.

Lemma each_admin_skip rec admin admins σ options :
  page_schema admin = None →
  each_admin rec (admin :: admins) σ options = each_admin rec admins σ options.
Proof. intros Hschema. cbn [each_admin]. by rewrite Hschema. Qed.

Lemma item_shape_item rec admin schema :
  page_schema admin = Some schema →
  item_shape rec admin
  = Some (Shape (ps_label schema)
            (casbin_permission_encode [unique_id admin; "admin:page"])
            (ps_sort schema) (children_shapes rec admin)).
Proof. intros Hschema. unfold item_shape. by rewrite Hschema. Qed.

Lemma item_shape_skip rec admin :
  page_schema admin = None → item_shape rec admin = None.
Proof. intros Hschema. unfold item_shape. by rewrite Hschema. Qed.

(** the loop over the members: the new items, after what was listed *)
Lemma each_admin_builds admins :
  Forall (λ admin, match admin with GroupAdmin g => build_spec g | _ => True end)
         admins →
  ∀ σ options,
    allocator_ok σ → NoDup (member_group_ids admins) →
    (∀ k, k ∈ member_group_ids admins → lru_find k (cache σ) = None) →
    ∃ tree,
      builds σ (each_admin build admins σ options).1 (node_oid <$> tree) tree
      ∧ (each_admin build admins σ options).2 = options ++ (node_oid <$> tree)
      ∧ memo_within (member_group_ids admins) σ
          (each_admin build admins σ options).1
      ∧ erase <$> tree = omap (item_shape group_shapes) admins.
Proof.
  induction 1 as [|admin admins IHadmin _ IH]; intros σ options Hok Hnodup Hmiss.
  { exists []. cbn. rewrite app_nil_r.
    split; [by apply builds_nil|]. split; [done|].
    split; [apply memo_within_refl|done]. }
  change (member_group_ids (admin :: admins))
    with (ids_of admin ++ member_group_ids admins) in *.
  apply NoDup_app in Hnodup as (Hnd_admin & Hdisj & Hnd_rest).
  destruct (page_schema admin) as [schema|] eqn:Hschema.
  - (* an item for this member *)
    rewrite (each_admin_item _ _ _ _ _ _ Hschema).
    destruct (fill_children_builds admin schema σ IHadmin Hok Hnd_admin)
      as (node & Hitem & Hmemo & Hnode).
    { intros k Hk. apply Hmiss, elem_of_app. by left. }
    set (σ1 := fill_children build admin (next_oid σ)
                 (new_dict (item_dict admin schema) σ).1) in *.
    destruct (IH σ1 (options ++ [next_oid σ]))
      as (tree & Hrest & Hopts & Hmemo' & Hshape).
    { by destruct Hitem as (_ & _ & _ & _ & _ & ? & _). }
    { done. }
    { intros k Hk. apply Hmemo; [by intros ?%Hdisj|].
      apply Hmiss, elem_of_app. by right. }
    exists (node :: tree).
    assert (Hoid : node_oid node = next_oid σ).
    { destruct Hitem as (Ho & _). by injection Ho. }
    split; [|split; [|split]].
    + rewrite fmap_cons, Hoid.
      exact (builds_app _ _ _ [next_oid σ] _ [node] _ Hitem Hrest).
    + rewrite Hopts, fmap_cons, Hoid, <- app_assoc. done.
    + eapply memo_within_trans; [exact Hmemo|exact Hmemo'| |];
        intros k Hk; apply elem_of_app; auto.
    + rewrite fmap_cons, Hshape, Hnode. cbn [omap list_omap].
      by rewrite (item_shape_item _ _ _ Hschema).
  - (* no page schema: the member is skipped *)
    rewrite (each_admin_skip _ _ _ _ _ Hschema).
    destruct (IH σ options Hok Hnd_rest) as (tree & Hrest & Hopts & Hmemo & Hshape).
    { intros k Hk. apply Hmiss, elem_of_app. by right. }
    exists tree. split; [done|]. split; [done|]. split.
    + eapply memo_within_weaken; [exact Hmemo|].
      intros k Hk. apply elem_of_app. by right.
    + rewrite Hshape. cbn [omap list_omap].
      by rewrite (item_shape_skip _ _ Hschema).
Qed.

(** every build of a group none of whose ids is memoised *)
Lemma build_spec_holds : ∀ g, build_spec g.
Proof.
  apply (AdminGroup_induction (λ g, build_spec g)).
  intros uid ps members IH σ Hok Hnodup Hmiss.
  change (group_ids (Group uid ps members))
    with (uid :: member_group_ids members) in *.
  apply NoDup_cons in Hnodup as [Huid Hnd].
  assert (Hmiss_uid : lru_find uid (cache σ) = None) by (apply Hmiss; by left).
  destruct (each_admin_builds members IH σ [] Hok Hnd)
    as (tree & Hbuilt & Hopts & Hmemo & Hshape).
  { intros k Hk. apply Hmiss. by right. }
  cbn [get_admin_action_options group_unique_id]. rewrite Hmiss_uid.
  destruct (each_admin build members σ []) as [σ1 options].
  cbn [fst snd] in *. rewrite app_nil_l in Hopts. subst options.
  assert (Hsorted : ∃ tree',
    tree' ≡ₚ tree
    ∧ node_oid <$> tree'
      = match node_oid <$> tree with
        | [] => node_oid <$> tree
        | _ :: _ => sort_desc (sort_key (heap σ1)) (node_oid <$> tree)
        end
    ∧ erase <$> tree' = sort_by shape_weight (erase <$> tree)).
  { destruct tree as [|n tree]; [by exists []|].
    rewrite fmap_cons. rewrite <- fmap_cons. apply sort_desc_shows_shapes.
    by destruct Hbuilt as (_ & ? & _). }
  destruct Hsorted as (tree' & Hperm & Hsorted & Hshape').
  rewrite <- Hsorted.
  assert (Hstill : lru_find uid (cache σ1) = None) by (by apply Hmemo).
  exists tree'. split; [|split; [|split]].
  - apply builds_set_cache. by eapply builds_perm.
  - intros k Hk Hk_miss. cbn [cache set_cache].
    apply not_elem_of_cons in Hk as [Hne Hk].
    apply lru_find_store_other; [done|]. by apply Hmemo.
  - cbn [cache set_cache]. by apply lru_find_store.
  - rewrite Hshape', Hshape. done.
Qed.

End BuildSpec.

(** A build of a group with pairwise distinct unique ids, none memoised
    yet, memoises a list that shows a forest, every dict once: what the
    theorems on [get_admin_action_options_by_subject] assume. *)
Theorem build_hands_out_forest (g : AdminGroup) (σ : State) :
  allocator_ok σ → NoDup (group_ids g) →
  (∀ k, k ∈ group_ids g → lru_find k (cache σ) = None) →
  let built := get_admin_action_options g σ in
  ∃ depth tree,
    snapshots depth (heap built.1) built.2 = Some tree
    ∧ NoDup (oids_list tree)
    ∧ lru_find (group_unique_id g) (cache built.1) = Some built.2.
Proof.
  intros Hok Hnodup Hmiss built.
  destruct (build_spec_holds g σ Hok Hnodup Hmiss)
    as (tree & (Hoids & Hrep & Hnd & _) & _ & Hmemo & _).
  exists (S (max_list (nesting <$> tree))), tree.
  split; [|done]. fold built in Hoids. rewrite <- Hoids.
  apply snapshots_complete; [done|].
  apply Forall_forall. intros n Hn.
  apply Nat.lt_succ_r, max_list_elem_of_le, list_elem_of_fmap. by exists n.
Qed.

(** in particular on a process that has just started *)
Lemma build_from_start (g : AdminGroup) :
  NoDup (group_ids g) →
  let built := get_admin_action_options g (mkState ∅ 0 []) in
  ∃ depth tree,
    snapshots depth (heap built.1) built.2 = Some tree
    ∧ NoDup (oids_list tree)
    ∧ lru_find (group_unique_id g) (cache built.1) = Some built.2.
Proof.
  intros Hnodup. apply build_hands_out_forest; [|done|done].
  intros o [d Hd]. cbn [heap] in Hd. by rewrite lookup_empty in Hd.
Qed.

(** ** The first call for a group, and the calls after a filtered one *)

(** A call for a group none of whose ids is memoised yet: the root subject
    is handed a list that shows the full tree of the group, any other
    subject a list that shows the full tree filtered by membership of the
    value in its implicit permissions. *)
Lemma first_call_serves_full_tree
    (ROOT : string) (get_implicit : Enforcer -> string -> list rule)
    (limit : nat) (enforcer : Enforcer) (subject : string)
    (g : AdminGroup) (σ : State) :
  allocator_ok σ → NoDup (group_ids g) →
  (∀ k, k ∈ group_ids g → lru_find k (cache σ) = None) →
  ∃ tree depth,
    erase <$> tree = group_shapes g
    ∧ (subject = "u:" +:+ ROOT →
       ∃ σ' options,
         get_admin_action_options_by_subject ROOT get_implicit limit enforcer
           subject g σ = Some (σ', options)
         ∧ shown depth σ' options = Some (group_shapes g))
    ∧ (subject ≠ "u:" +:+ ROOT → max_list (nesting <$> tree) < limit →
       ∃ σ' options,
         get_admin_action_options_by_subject ROOT get_implicit limit enforcer
           subject g σ = Some (σ', options)
         ∧ shown depth σ' options
           = Some (erase <$> filter_options tree
                     (by_value (casbin_get_subject_permissions get_implicit
                                  enforcer subject true)))).
Proof.
  intros Hok Hnodup Hmiss.
  destruct (build_spec_holds g σ Hok Hnodup Hmiss)
    as (tree & (Hoids & Hrep & Hnd & _) & _ & _ & Hshape).
  assert (Hnest : Forall (λ n, nesting n < S (max_list (nesting <$> tree))) tree).
  { apply Forall_forall. intros n Hn.
    apply Nat.lt_succ_r, max_list_elem_of_le, list_elem_of_fmap. by exists n. }
  exists tree, (S (max_list (nesting <$> tree))).
  split; [done|]. split.
  - intros ->.
    exists (get_admin_action_options g σ).1, (get_admin_action_options g σ).2.
    split.
    { rewrite by_subject_root. by destruct (get_admin_action_options g σ). }
    unfold shown. rewrite <- Hoids, snapshots_complete by done.
    cbn [fmap option_fmap option_map]. by rewrite Hshape.
  - intros Hsubject Hdepth.
    destruct (by_subject_other ROOT get_implicit limit enforcer subject g σ
                tree Hsubject (eq_sym Hoids) (conj Hrep Hnd) Hdepth)
      as (h2 & Hrun & Hshown & _).
    eexists _, _. split; [exact Hrun|].
    unfold shown. cbn [heap set_heap].
    rewrite snapshots_complete; [done| |].
    + by apply Forall_shown_filter.
    + apply Forall_shown_filter, Forall_fmap.
      eapply Forall_impl; [exact Hnest|]. intros n Hn.
      eapply Nat.le_lt_trans; [apply nesting_shown_after|done].
Qed.

(** C7, at three calls for the same site on a process that has just
    started: bob, root, alice.  The claim holds for the first caller: had
    root called first, it would have been handed the full tree.  But once
    bob has been served, root is handed a tree that is not the full one:
    its users page holds the create action only, where the full tree holds
    the list, create and delete actions.  And alice, who may see the users
    page and delete users, is handed the users page without any action,
    where the full tree filtered by her permissions holds the delete
    action. *)
Theorem later_callers_get_stripped_tree :
  let full := group_shapes SiteExample.site in
  let users children :=
    Shape "Users" "site.user#admin:page###" (Some 1%Z) (Some children) in
  let list_ := Shape "查看列表" "site.user#admin:list###" None None in
  let create := Shape "Create" "site.user#admin:create###" None None in
  let delete := Shape "Delete" "site.user#admin:delete###" None None in
  erase <$> SiteExample.full_tree = full
  ∧ full !! 1 = Some (users [list_; create; delete])
  ∧ (∃ σ options,
       SiteCallers.call "u:root" SiteExample.start = Some (σ, options)
       ∧ shown 3 σ options = Some full)
  ∧ (∃ σ options,
       SiteCallers.call "u:bob" SiteExample.start = Some (σ, options)
       ∧ σ = SiteCallers.after_bob
       ∧ shown 3 σ options = Some [users [create]])
  ∧ (∃ σ options tree,
       SiteCallers.call "u:root" SiteCallers.after_bob = Some (σ, options)
       ∧ σ = SiteCallers.after_root
       ∧ shown 3 σ options = Some tree
       ∧ tree !! 1 = Some (users [create])
       ∧ tree ≠ full)
  ∧ (∃ σ options,
       SiteCallers.call "u:alice" SiteCallers.after_root = Some (σ, options)
       ∧ shown 3 σ options = Some [users []]
       ∧ erase <$> filter_options SiteExample.full_tree
                     (by_value (casbin_get_subject_permissions
                                  SiteCallers.implicit_permissions
                                  SiteExample.no_rules "u:alice" true))
         = [users [delete]]).
Proof.
  intros full users list_ create delete.
  split; [by_computation|].
  split; [by_computation|].
  split; [eexists _, _; split; by_computation|].
  split; [eexists _, _; split; [by_computation|split; by_computation]|].
  split.
  - eexists _, _, _. split; [by_computation|]. split; [by_computation|].
    split; [by_computation|]. split; [by_computation|].
    vm_compute. discriminate.
  - eexists _, _. split; [by_computation|]. split; by_computation.
Qed.
